(** * update_badges.py: a shallow embedding and its verified properties

    The script fetches a list of badge records (JSON), groups them by
    issuer, renders an HTML/Markdown fragment and splices it between two
    marker comments of README.md.

    The file has three parts: the functions of the script; the
    vocabulary of the statements; the properties, function by function.

    Modelling conventions.
    - A Python [str] is a [string]: the sequence of the bytes of its
      UTF-8 encoding.  Searching, slicing at a found position,
      concatenation, equality and the lexicographic order agree with
      those of the sequence of code points.
    - The values produced by [json.loads] are the terms of [json].  JSON
      numbers with a fraction or an exponent (Python floats) are outside
      the model.
    - A computation that can raise is a [Result]; the exception classes
      are the constructors of [exn], [SystemExit] among them.
    - A Python [dict] is an association list in insertion order.
    - README.md exists and holds UTF-8 text, and the script runs on a
      POSIX host.  [Path.read_text] opens the file in text mode, so it
      returns the content with every CRLF and every lone CR read as a
      newline; [Path.write_text] stores a newline as a newline, so the
      file holds the text it was given. *)

From Stdlib Require Import List String Ascii ZArith Bool Lia Arith.
From Stdlib Require Import Permutation Sorted OrderedTypeEx DecimalString.
Import ListNotations.
Local Open Scope string_scope.
Local Open Scope Z_scope.
#[local] Set Warnings "-register-all".

(* ================================================================== *)
(** ** Exceptions and the error monad *)

Inductive exn : Type :=
| KeyError
| IndexError
| TypeError
| AttributeError
| URLError
| HTTPError
| TimeoutError
| JSONDecodeError
| SystemExit (code : Z).

(** [isinstance(e, Exception)]: [SystemExit] derives from
    [BaseException] only. *)
Definition is_Exception (e : exn) : bool :=
  match e with
  | SystemExit _ => false
  | _ => true
  end.

Inductive Result (A : Type) : Type :=
| Ok (a : A)
| Raise (e : exn).
Arguments Ok {A} a.
Arguments Raise {A} e.

Definition bind {A B : Type} (c : Result A) (k : A -> Result B) : Result B :=
  match c with
  | Ok a => k a
  | Raise e => Raise e
  end.

Notation "x <- c ;; k" := (bind c (fun x => k))
  (at level 61, c at next level, right associativity).

(** [try: c  except (classes): handler] *)
Definition try_except {A : Type} (c : Result A) (caught : exn -> bool)
    (handler : Result A) : Result A :=
  match c with
  | Ok a => Ok a
  | Raise e => if caught e then handler else Raise e
  end.

Fixpoint mapM {A B : Type} (f : A -> Result B) (l : list A) : Result (list B) :=
  match l with
  | [] => Ok []
  | x :: l' => y <- f x ;; ys <- mapM f l' ;; Ok (y :: ys)
  end.

(* ================================================================== *)
(** ** JSON values and the Python operations on them *)

Inductive json : Type :=
| JNull
| JBool (b : bool)
| JInt (n : Z)
| JStr (s : string)
| JList (l : list json)
| JDict (d : list (string * json)).

Fixpoint dict_lookup {V : Type} (k : string) (d : list (string * V)) : option V :=
  match d with
  | [] => None
  | (k', v) :: d' => if String.eqb k' k then Some v else dict_lookup k d'
  end.

(** [v[k]] for a string [k]. *)
Definition getitem_key (v : json) (k : string) : Result json :=
  match v with
  | JDict d =>
      match dict_lookup k d with
      | Some x => Ok x
      | None => Raise KeyError
      end
  | _ => Raise TypeError
  end.

(** Position of index [i] in a sequence of length [len]: negative indices
    count from the end. *)
Definition seq_index (i : Z) (len : nat) : option nat :=
  let j := if i <? 0 then i + Z.of_nat len else i in
  if (0 <=? j) && (j <? Z.of_nat len) then Some (Z.to_nat j) else None.

(** [v[i]] for an integer [i].  The keys of a JSON object are strings, so
    an integer is never among them; a string yields a one-character
    string (here: one byte). *)
Definition getitem_int (v : json) (i : Z) : Result json :=
  match v with
  | JList l =>
      match seq_index i (List.length l) with
      | Some n =>
          match nth_error l n with
          | Some x => Ok x
          | None => Raise IndexError
          end
      | None => Raise IndexError
      end
  | JStr s =>
      match seq_index i (String.length s) with
      | Some n =>
          match String.get n s with
          | Some c => Ok (JStr (String c EmptyString))
          | None => Raise IndexError
          end
      | None => Raise IndexError
      end
  | JDict _ => Raise KeyError
  | _ => Raise TypeError
  end.

Notation "v .@ k" := (getitem_key v k) (at level 9, k at level 0, format "v .@ k").
Notation "v .# i" := (getitem_int v i) (at level 9, i at level 0, format "v .# i").

(** [v.get(k, default)] *)
Definition dict_get (v : json) (k : string) (default : json) : Result json :=
  match v with
  | JDict d =>
      match dict_lookup k d with
      | Some x => Ok x
      | None => Ok default
      end
  | _ => Raise AttributeError
  end.

(** [for x in v]: the elements a [for] loop over [v] visits. *)
Definition py_iter (v : json) : Result (list json) :=
  match v with
  | JList l => Ok l
  | JDict d => Ok (map (fun kv => JStr (fst kv)) d)
  | JStr s => Ok (map (fun c => JStr (String c EmptyString)) (list_ascii_of_string s))
  | _ => Raise TypeError
  end.

Definition bool_to_Z (b : bool) : Z := if b then 1 else 0.

(** [a == b].  Booleans are the integers 0 and 1; two dicts are equal
    when they have the same keys with equal values. *)
Fixpoint py_eq (a b : json) {struct a} : bool :=
  match a, b with
  | JNull, JNull => true
  | JBool x, JBool y => Bool.eqb x y
  | JBool x, JInt n => bool_to_Z x =? n
  | JInt m, JBool y => m =? bool_to_Z y
  | JInt m, JInt n => m =? n
  | JStr s, JStr t => String.eqb s t
  | JList la, JList lb =>
      (fix all2 (la lb : list json) {struct la} : bool :=
         match la, lb with
         | [], [] => true
         | x :: la', y :: lb' => py_eq x y && all2 la' lb'
         | _, _ => false
         end) la lb
  | JDict da, JDict db =>
      Nat.eqb (List.length da) (List.length db) &&
      (fix sub (da : list (string * json)) {struct da} : bool :=
         match da with
         | [] => true
         | (k, x) :: da' =>
             match dict_lookup k db with
             | Some y => py_eq x y
             | None => false
             end && sub da'
         end) da
  | _, _ => false
  end.

(** [a < b].  Numbers compare by value, strings and lists
    lexicographically; every other pair is unorderable. *)
Fixpoint py_lt (a b : json) {struct a} : Result bool :=
  match a, b with
  | JBool x, JBool y => Ok (bool_to_Z x <? bool_to_Z y)
  | JBool x, JInt n => Ok (bool_to_Z x <? n)
  | JInt m, JBool y => Ok (m <? bool_to_Z y)
  | JInt m, JInt n => Ok (m <? n)
  | JStr s, JStr t => Ok (String.ltb s t)
  | JList la, JList lb =>
      (fix lex (la lb : list json) {struct la} : Result bool :=
         match la, lb with
         | [], [] => Ok false
         | [], _ :: _ => Ok true
         | _ :: _, [] => Ok false
         | x :: la', y :: lb' => if py_eq x y then lex la' lb' else py_lt x y
         end) la lb
  | _, _ => Raise TypeError
  end.

(** [hash(v)] succeeds: lists and dicts are unhashable. *)
Definition hashable (v : json) : bool :=
  match v with
  | JList _ | JDict _ => false
  | _ => true
  end.

(* ================================================================== *)
(** ** Configuration constants *)

Definition START_MARKER : string := "<!-- CREDLY_BADGES_START -->".
Definition END_MARKER : string := "<!-- CREDLY_BADGES_END -->".
Definition ISSUER_ORDER : list string := ["The Linux Foundation"; "IBM"; "Isovalent"].

(* ================================================================== *)
(** ** issuer_name *)

Definition is_KeyError_or_IndexError (e : exn) : bool :=
  match e with
  | KeyError | IndexError => true
  | _ => false
  end.

Definition issuer_name (badge : json) : Result json :=
  try_except
    (t <- badge.@"badge_template" ;;
     i <- t.@"issuer" ;;
     es <- i.@"entities" ;;
     e0 <- es.#0 ;;
     e <- e0.@"entity" ;;
     e.@"name")
    is_KeyError_or_IndexError
    (Ok (JStr "Other")).

(** The traversal of [issuer_name] as a path of subscripts. *)
Inductive step : Type :=
| Key (k : string)
| Index (i : Z).

Definition subscript (v : json) (s : step) : Result json :=
  match s with
  | Key k => v.@k
  | Index i => v.#i
  end.

Fixpoint follow (p : list step) (v : json) : Result json :=
  match p with
  | [] => Ok v
  | s :: p' => x <- subscript v s ;; follow p' x
  end.

Definition issuer_path : list step :=
  [Key "badge_template"; Key "issuer"; Key "entities"; Index 0; Key "entity"; Key "name"].

(** The value supports the subscript: an object for a key, a sequence or
    an object for an integer. *)
Definition supports (v : json) (s : step) : bool :=
  match s, v with
  | Key _, JDict _ => true
  | Index _, (JList _ | JStr _ | JDict _) => true
  | _, _ => false
  end.

(** Every value met along the path supports the subscript applied to it
    (the path may still stop early at a missing key or index). *)
Fixpoint supported_along (p : list step) (v : json) : bool :=
  match p with
  | [] => true
  | s :: p' =>
      supports v s &&
      match subscript v s with
      | Ok x => supported_along p' x
      | Raise _ => true
      end
  end.

(* ================================================================== *)
(** ** group_badges *)

(** The dict [groups]: issuer name to the list of its badges, in
    insertion order.  Keys are compared with [==]. *)
Abbreviation Groups := (list (json * list json)).

Fixpoint foldM {A S : Type} (f : S -> A -> Result S) (l : list A) (s : S) : Result S :=
  match l with
  | [] => Ok s
  | x :: l' => s' <- f s x ;; foldM f l' s'
  end.

(** [k in d] and [d[k]] *)
Fixpoint groups_lookup {V : Type} (k : json) (d : list (json * V)) : option V :=
  match d with
  | [] => None
  | (k', v) :: d' => if py_eq k' k then Some v else groups_lookup k d'
  end.

(** [del d[k]] *)
Fixpoint groups_remove {V : Type} (k : json) (d : list (json * V)) : list (json * V) :=
  match d with
  | [] => []
  | (k', v) :: d' => if py_eq k' k then d' else (k', v) :: groups_remove k d'
  end.

(** [d[k] = v]: an existing key keeps its place, a new one goes last. *)
Fixpoint dict_set {V : Type} (k : json) (v : V) (d : list (json * V)) : list (json * V) :=
  match d with
  | [] => [(k, v)]
  | (k', v') :: d' => if py_eq k' k then (k', v) :: d' else (k', v') :: dict_set k v d'
  end.

(** [groups.setdefault(issuer, []).append(badge)] *)
Fixpoint setdefault_append (issuer badge : json) (groups : Groups) : Groups :=
  match groups with
  | [] => [(issuer, [badge])]
  | (k, l) :: groups' =>
      if py_eq k issuer then (k, (l ++ [badge])%list) :: groups'
      else (k, l) :: setdefault_append issuer badge groups'
  end.

(** One iteration of the first loop.  Using an unhashable issuer name as
    a key raises [TypeError]. *)
Definition group_step (groups : Groups) (badge : json) : Result Groups :=
  issuer <- issuer_name badge ;;
  if hashable issuer then Ok (setdefault_append issuer badge groups)
  else Raise TypeError.

(** Insertion of [x] into a sorted list, to the right of the elements it
    is not smaller than. Only [x < y] is ever asked, as [list.sort] does. *)
Fixpoint insert_by {A : Type} (lt : A -> A -> Result bool) (x : A) (l : list A)
    : Result (list A) :=
  match l with
  | [] => Ok [x]
  | y :: l' =>
      c <- lt x y ;;
      if c then Ok (x :: y :: l')
      else (r <- insert_by lt x l' ;; Ok (y :: r))
  end.

(** The stable ascending sort underlying [sorted] and [list.sort], as a
    stable insertion sort.  CPython's merge sort returns the same list
    whenever no comparison raises and [<] orders the keys; the two ask
    about different pairs, so on keys that [<] does not order they can
    differ in whether an error surfaces. *)
Definition py_sort {A : Type} (lt : A -> A -> Result bool) (l : list A)
    : Result (list A) :=
  foldM (fun acc x => insert_by lt x acc) l [].

(** [l.sort(key=key, reverse=reverse)]: the keys are computed first; a
    reverse sort reverses the list, sorts it, and reverses the result. *)
Definition list_sort {A : Type} (key : A -> Result json) (reverse : bool)
    (l : list A) : Result (list A) :=
  keyed <- mapM (fun x => k <- key x ;; Ok (k, x)) l ;;
  let keyed := if reverse then rev keyed else keyed in
  sorted <- py_sort (fun p q => py_lt (fst p) (fst q)) keyed ;;
  Ok (map snd (if reverse then rev sorted else sorted)).

(** [lambda b: b.get("issued_at_date", "")] *)
Definition issued_at_key (b : json) : Result json :=
  dict_get b "issued_at_date" (JStr "").

(** The second loop: every group is sorted in place. *)
Definition sort_groups (groups : Groups) : Result Groups :=
  mapM (fun kv => l <- list_sort issued_at_key true (snd kv) ;; Ok (fst kv, l)) groups.

(** One step of the comprehension
    [{name: groups.pop(name) for name in ISSUER_ORDER if name in groups}];
    the state is the pair [(known, groups)]. *)
Definition pop_known_step (st : Groups * Groups) (name : string) : Groups * Groups :=
  let (known, groups) := st in
  match groups_lookup (JStr name) groups with
  | Some l => (dict_set (JStr name) l known, groups_remove (JStr name) groups)
  | None => st
  end.

(** [(k1, l1) < (k2, l2)] on the items of a dict: the first components
    decide unless they are equal. *)
Definition item_lt (p q : json * list json) : Result bool :=
  if py_eq (fst p) (fst q) then py_lt (JList (snd p)) (JList (snd q))
  else py_lt (fst p) (fst q).

(** [dict(items)] *)
Definition dict_of_items {V : Type} (items : list (json * V)) : list (json * V) :=
  fold_left (fun d kv => dict_set (fst kv) (snd kv) d) items [].

(** [{**a, **b}] *)
Definition dict_merge {V : Type} (a b : list (json * V)) : list (json * V) :=
  fold_left (fun d kv => dict_set (fst kv) (snd kv) d) b a.

Definition group_badges (badges : json) : Result Groups :=
  bs <- py_iter badges ;;
  groups <- foldM group_step bs [] ;;
  groups <- sort_groups groups ;;
  let (known, groups) := fold_left pop_known_step ISSUER_ORDER ([], groups) in
  sorted_items <- py_sort item_lt groups ;;
  let unknown := dict_of_items sorted_items in
  Ok (dict_merge known unknown).

(* ================================================================== *)
(** ** badge_html and render_section *)

(** The built-in conversions the script relies on and that this
    development leaves open: [str(v)] for a JSON value that is not a
    string, and [str(e)] for an exception. *)
Record Builtins : Type := {
  str_of_value : json -> string;
  str_of_exn : exn -> string
}.

(** A replacement field [{v}] of an f-string. *)
Definition fmt (rt : Builtins) (v : json) : string :=
  match v with
  | JStr s => s
  | _ => str_of_value rt v
  end.

Definition dq : string := String (ascii_of_nat 34) EmptyString.
Definition nl : string := String (ascii_of_nat 10) EmptyString.

Definition badge_html (rt : Builtins) (badge : json) : Result string :=
  badge_id <- badge.@"id" ;;
  tmpl <- badge.@"badge_template" ;;
  name <- tmpl.@"name" ;;
  image_url <- tmpl.@"image_url" ;;
  Ok ("<a href=" ++ dq ++ "https://www.credly.com/badges/" ++ fmt rt badge_id
        ++ "/public_url" ++ dq ++ ">"
      ++ "<img height=" ++ dq ++ "90" ++ dq ++ " width=" ++ dq ++ "90" ++ dq
        ++ " src=" ++ dq ++ fmt rt image_url ++ dq
        ++ " alt=" ++ dq ++ fmt rt name ++ dq ++ "/></a>")%string.

(** The body of the loop of [render_section]. *)
Definition render_group (rt : Builtins) (lines : list string)
    (item : json * list json) : Result (list string) :=
  let (issuer, badges) := item in
  htmls <- mapM (badge_html rt) badges ;;
  Ok (lines ++ [("**" ++ fmt rt issuer ++ "**")%string; ""; String.concat " " htmls; ""])%list.

Definition render_section (rt : Builtins) (grouped : Groups) : Result string :=
  lines <- foldM (render_group rt) grouped ["### Certificates & Badges"; ""] ;;
  Ok (String.concat nl lines).

(* ================================================================== *)
(** ** Strings: find and slices *)

(** [sub] occurs at the start of [s]. *)
Fixpoint starts_with (sub s : string) : bool :=
  match sub, s with
  | EmptyString, _ => true
  | String a sub', String b s' => Ascii.eqb a b && starts_with sub' s'
  | String _ _, EmptyString => false
  end.

Fixpoint find_at (sub s : string) (i : nat) : Z :=
  if starts_with sub s then Z.of_nat i
  else
    match s with
    | EmptyString => -1
    | String _ s' => find_at sub s' (S i)
    end.

(** [s.find(sub)]: the lowest index where [sub] occurs, or -1. *)
Definition py_find (s sub : string) : Z := find_at sub s 0.

Fixpoint str_take (n : nat) (s : string) : string :=
  match n, s with
  | S n', String c s' => String c (str_take n' s')
  | _, _ => EmptyString
  end.

Fixpoint str_drop (n : nat) (s : string) : string :=
  match n, s with
  | S n', String _ s' => str_drop n' s'
  | _, _ => s
  end.

(** A slice bound: negative bounds count from the end, and the result is
    clipped to the string. *)
Definition slice_bound (i : Z) (len : nat) : nat :=
  if i <? 0 then Z.to_nat (Z.max 0 (i + Z.of_nat len))
  else Z.to_nat (Z.min i (Z.of_nat len)).

(** [s[:i]] and [s[i:]] *)
Definition slice_to (s : string) (i : Z) : string :=
  str_take (slice_bound i (String.length s)) s.
Definition slice_from (s : string) (i : Z) : string :=
  str_drop (slice_bound i (String.length s)) s.

(* ================================================================== *)
(** ** The process: README.md, the two output streams, exit *)

(** [readme] is the content of README.md as the file stores it, a file
    that exists and decodes; [reads] counts the calls of [read_text] and
    [writes] lists the contents passed to [write_text], oldest first. *)
Record World : Type := {
  readme : string;
  stdout : list string;
  stderr : list string;
  reads : nat;
  writes : list string
}.

Definition CR : ascii := ascii_of_nat 13.
Definition LF : ascii := ascii_of_nat 10.

(** Reading in text mode with [newline=None]: CRLF and a lone CR are
    both read as LF.  [after_cr] says that the character before was a
    CR, of which a following LF is the second half. *)
Fixpoint universal_newlines_from (after_cr : bool) (s : string) : string :=
  match s with
  | EmptyString => EmptyString
  | String c s' =>
      if Ascii.eqb c CR then String LF (universal_newlines_from true s')
      else if Ascii.eqb c LF then
        if after_cr then universal_newlines_from false s'
        else String LF (universal_newlines_from false s')
      else String c (universal_newlines_from false s')
  end.

Definition universal_newlines (s : string) : string :=
  universal_newlines_from false s.

Definition IO (A : Type) : Type := World -> Result A * World.

Definition io_ret {A : Type} (a : A) : IO A := fun w => (Ok a, w).

Definition io_bind {A B : Type} (c : IO A) (k : A -> IO B) : IO B :=
  fun w =>
    match c w with
    | (Ok a, w') => k a w'
    | (Raise e, w') => (Raise e, w')
    end.

Notation "x <~ c ;; k" := (io_bind c (fun x => k))
  (at level 61, c at next level, right associativity).
Notation "c ;;; k" := (io_bind c (fun _ => k))
  (at level 61, right associativity).

Definition lift {A : Type} (r : Result A) : IO A := fun w => (r, w).

(** [README_PATH.read_text()]: the file is opened in text mode, its
    content decoded and its line endings translated.  The file exists
    and decodes (see the conventions), so nothing is raised. *)
Definition read_text : IO string := fun w =>
  (Ok (universal_newlines (readme w)),
   {| readme := readme w; stdout := stdout w; stderr := stderr w;
      reads := S (reads w); writes := writes w |}).

(** [README_PATH.write_text(content)]: the file is replaced by the
    encoding of [content], newlines stored as they are (POSIX).  A
    [string] is already the UTF-8 encoding of its text, so the encoding
    raises nothing; a carriage return in [content] is stored, and read
    back as a newline. *)
Definition write_text (content : string) : IO unit := fun w =>
  (Ok tt, {| readme := content; stdout := stdout w; stderr := stderr w;
             reads := reads w; writes := writes w ++ [content] |}).

Definition print (line : string) : IO unit := fun w =>
  (Ok tt, {| readme := readme w; stdout := stdout w ++ [line]; stderr := stderr w;
             reads := reads w; writes := writes w |}).

Definition eprint (line : string) : IO unit := fun w =>
  (Ok tt, {| readme := readme w; stdout := stdout w; stderr := stderr w ++ [line];
             reads := reads w; writes := writes w |}).

Definition sys_exit {A : Type} (code : Z) : IO A := lift (Raise (SystemExit code)).

(* ================================================================== *)
(** ** update_readme and main *)

Definition new_content (readme : string) (start end_ : Z) (section_content : string)
    : string :=
  (slice_to readme (start + Z.of_nat (String.length START_MARKER))
   ++ nl ++ section_content ++ slice_from readme end_)%string.

Definition update_readme (section_content : string) : IO unit :=
  readme <~ read_text ;;
  let start := py_find readme START_MARKER in
  let end_ := py_find readme END_MARKER in
  if (start =? -1) || (end_ =? -1) then
    eprint "ERROR: Marker comments not found in README.md" ;;;
    sys_exit 1
  else
    let new := new_content readme start end_ section_content in
    if String.eqb new readme then
      print "No changes needed."
    else
      write_text new ;;;
      print "README.md updated with badges.".

(** What the single HTTP request and [json.loads] come to. *)
Inductive Network : Type :=
| Unreachable              (* [urlopen] raised [URLError] *)
| ErrorStatus              (* [urlopen] raised [HTTPError] *)
| TimedOut                 (* [urlopen] or [read] raised [TimeoutError] *)
| Malformed                (* [json.loads] raised [JSONDecodeError] *)
| Parsed (v : json).       (* [json.loads] returned [v] *)

Definition fetch_badges (net : Network) : Result json :=
  match net with
  | Unreachable => Raise URLError
  | ErrorStatus => Raise HTTPError
  | TimedOut => Raise TimeoutError
  | Malformed => Raise JSONDecodeError
  | Parsed v => v.@"data"
  end.

Definition main (rt : Builtins) (net : Network) : IO unit :=
  fun w =>
    match fetch_badges net with
    | Raise e =>
        if is_Exception e then
          (eprint ("WARNING: Failed to fetch badges: " ++ str_of_exn rt e) ;;;
           print "Keeping existing README content." ;;;
           sys_exit 0) w
        else (Raise e, w)
    | Ok badges =>
        (grouped <~ lift (group_badges badges) ;;
         section <~ lift (render_section rt grouped) ;;
         update_readme section) w
    end.

(* ================================================================== *)
(** * Vocabulary of the statements *)

(** ** Occurrences of a marker *)

(** [sub] occurs in [s] at position [n] and nowhere before. *)
Definition first_at (sub s : string) (n : nat) : Prop :=
  (n <= String.length s)%nat /\
  starts_with sub (str_drop n s) = true /\
  forall m, (m < n)%nat -> starts_with sub (str_drop m s) = false.

(** [sub] occurs nowhere in [s]. *)
Definition absent (sub s : string) : Prop :=
  forall m, (m <= String.length s)%nat -> starts_with sub (str_drop m s) = false.

(** A document with the two markers, and the same document with the
    fragment between them. *)
Definition old_doc (pre mid suf : string) : string :=
  pre ++ START_MARKER ++ mid ++ END_MARKER ++ suf.

Definition new_doc (pre section_content suf : string) : string :=
  pre ++ START_MARKER ++ nl ++ section_content ++ END_MARKER ++ suf.

(** The state after a run of [update_readme] that found nothing to
    change. *)
Definition unchanged (w : World) : World :=
  {| readme := readme w; stdout := stdout w ++ ["No changes needed."];
     stderr := stderr w; reads := S (reads w); writes := writes w |}.

(** ** The text of README.md *)

(** What [read_text] returns on [w]: the content of the file with its
    line endings read as newlines. *)
Definition text_of (w : World) : string := universal_newlines (readme w).

(** [s] holds no carriage return. *)
Fixpoint no_CR (s : string) : bool :=
  match s with
  | EmptyString => true
  | String c s' => negb (Ascii.eqb c CR) && no_CR s'
  end.

(** [s] holds neither a carriage return nor a newline. *)
Fixpoint one_line (s : string) : bool :=
  match s with
  | EmptyString => true
  | String c s' => negb (Ascii.eqb c CR) && negb (Ascii.eqb c LF) && one_line s'
  end.

Definition cr : string := String CR EmptyString.

(** ** The order of the issuer names *)



(** ** Keys of a dict *)

(** Equal keys have the same normal form: [True == 1], [False == 0]. *)
Definition norm_key (v : json) : json :=
  match v with
  | JBool b => JInt (bool_to_Z b)
  | _ => v
  end.

Definition keys {V : Type} (d : list (json * V)) : list json := map fst d.

Definition keys_hashable {V : Type} (d : list (json * V)) : Prop :=
  Forall (fun k => hashable k = true) (keys d).

(** No two keys are equal ([==]). *)
Definition keys_distinct {V : Type} (d : list (json * V)) : Prop :=
  NoDup (map norm_key (keys d)).

(** ** Groups *)

(** The issuer name of [badge] is [k]. *)
Definition issuer_is (k badge : json) : bool :=
  match issuer_name badge with
  | Ok n => py_eq k n
  | Raise _ => false
  end.

(** The dict [groups] of the first loop, after the badges [done]. *)
Record grouped_of (done : list json) (groups : Groups) : Prop := {
  go_hashable : keys_hashable groups;
  go_distinct : keys_distinct groups;
  go_perm : Permutation (List.concat (map snd groups)) done;
  go_filter :
    Forall (fun kv => snd kv = filter (issuer_is (fst kv)) done /\ snd kv <> []) groups;
  go_named : Forall (fun b => exists n, issuer_name b = Ok n /\ hashable n = true) done
}.

(** What [sort_groups] does to one group. *)
Definition group_sorted (kv kv' : json * list json) : Prop :=
  fst kv' = fst kv /\ list_sort issued_at_key true (snd kv) = Ok (snd kv').

(** [name in groups] *)
Definition has_group (groups : Groups) (name : string) : bool :=
  match groups_lookup (JStr name) groups with
  | Some _ => true
  | None => false
  end.

(** Some badge of [bs] has the issuer [name]. *)
Definition has_badges (bs : list json) (name : string) : bool :=
  existsb (issuer_is (JStr name)) bs.

(** The groups of the issuers of [names], in the order of [names]. *)
Definition picks (names : list string) (groups : Groups) : Groups :=
  flat_map (fun n => match groups_lookup (JStr n) groups with
                     | Some l => [(JStr n, l)]
                     | None => []
                     end) names.

(** [k] is one of [names]; the group [kv] is of none of them; the group
    [kv] is not of [n]. *)
Definition named (names : list string) (k : json) : bool :=
  existsb (fun n => py_eq k (JStr n)) names.

Definition unnamed (names : list string) (kv : json * list json) : bool :=
  negb (named names (fst kv)).

Definition drop_name (n : string) (kv : json * list json) : bool :=
  negb (py_eq (fst kv) (JStr n)).

(** [a < b] holds.  On strings this is the lexicographic order of the
    character codes. *)
Definition key_lt (a b : json) : Prop := py_lt a b = Ok true.

Definition item_key_lt (p q : json * list json) : Prop := key_lt (fst p) (fst q).

(** [item_lt] on items whose keys are strings. *)
Definition item_ltb (p q : json * list json) : bool :=
  match fst p, fst q with
  | JStr s, JStr t => String.ltb s t
  | _, _ => false
  end.

(** ** Sorting *)

(** [insert_by] and [py_sort] for a comparison that cannot raise. *)
Fixpoint insert_pure {A : Type} (ltb : A -> A -> bool) (x : A) (l : list A) : list A :=
  match l with
  | [] => [x]
  | y :: l' => if ltb x y then x :: y :: l' else y :: insert_pure ltb x l'
  end.

Definition sort_pure {A : Type} (ltb : A -> A -> bool) (l : list A) : list A :=
  fold_left (fun acc x => insert_pure ltb x acc) l [].




(** The issuance date as a string, a missing date read as the empty
    string. *)
Definition date_of (b : json) : string :=
  match issued_at_key b with
  | Ok (JStr s) => s
  | _ => ""
  end.

(** The date of [b] is a string, or missing. *)
Definition has_date_string (b : json) : Prop :=
  exists s, issued_at_key b = Ok (JStr s).

Definition date_ltb (a b : json) : bool := String.ltb (date_of a) (date_of b).



(** Newest first, equal dates in the order of [l]. *)
Definition sort_newest_first (l : list json) : list json :=
  rev (sort_pure date_ltb (rev l)).

(** A badge as the data model describes it: its issuer name is a string
    (possibly the sentinel), and its date is a string or missing. *)
Definition well_formed_badge (b : json) : Prop :=
  (exists s, issuer_name b = Ok (JStr s)) /\ has_date_string b.

(** ** The rendered fragment *)

(** [v[k]], null when the key is missing. *)
Definition field (v : json) (k : string) : json :=
  match v.@k with
  | Ok x => x
  | Raise _ => JNull
  end.

(** The badge has the four fields the markup is made of. *)
Definition has_render_fields (b : json) : Prop :=
  exists badge_id tmpl name image_url,
    b.@"id" = Ok badge_id /\ b.@"badge_template" = Ok tmpl /\
    tmpl.@"name" = Ok name /\ tmpl.@"image_url" = Ok image_url.

(** The badge lacks one of them. *)
Definition lacks_render_field (b : json) : Prop :=
  b.@"id" = Raise KeyError \/
  b.@"badge_template" = Raise KeyError \/
  exists tmpl, b.@"badge_template" = Ok tmpl /\
               (tmpl.@"name" = Raise KeyError \/ tmpl.@"image_url" = Raise KeyError).

Definition Ok_or_KeyError {A : Type} (r : Result A) : Prop :=
  (exists a, r = Ok a) \/ r = Raise KeyError.

(** The markup of one badge: an anchor to the public URL of the badge,
    built from its identifier, around a 90x90 image whose source is the
    image URL of the template and whose alternate text is its name. *)
Definition anchor (rt : Builtins) (b : json) : string :=
  "<a href=" ++ dq ++ "https://www.credly.com/badges/" ++ fmt rt (field b "id")
    ++ "/public_url" ++ dq ++ ">"
  ++ "<img height=" ++ dq ++ "90" ++ dq ++ " width=" ++ dq ++ "90" ++ dq
    ++ " src=" ++ dq ++ fmt rt (field (field b "badge_template") "image_url") ++ dq
    ++ " alt=" ++ dq ++ fmt rt (field (field b "badge_template") "name") ++ dq ++ "/></a>".

(** The four lines of one group: the issuer in bold, a blank line, the
    anchors separated by single spaces, a blank line. *)
Definition group_lines (rt : Builtins) (item : json * list json) : list string :=
  ["**" ++ fmt rt (fst item) ++ "**"; ""; String.concat " " (map (anchor rt) (snd item)); ""].

Definition heading : string := "### Certificates & Badges".

(** The fragment: the heading, a blank line, the lines of the groups. *)
Definition section_layout (rt : Builtins) (grouped : Groups) : string :=
  String.concat nl ([heading; ""] ++ flat_map (group_lines rt) grouped).

(** The layout with the groups directly under the heading. *)
Definition section_layout_no_blank (rt : Builtins) (grouped : Groups) : string :=
  String.concat nl ([heading] ++ flat_map (group_lines rt) grouped).

(** The fragment [main] passes to [update_readme], as a function of what
    was fetched. *)
Definition rendered_section (rt : Builtins) (net : Network) : Result string :=
  badges <- fetch_badges net ;;
  grouped <- group_badges badges ;;
  render_section rt grouped.

(** ** Sample data *)

(** Built-ins to run the model with: [str] of null, of a boolean and of
    an integer as Python prints them. *)
Definition demo_builtins : Builtins :=
  {| str_of_value := fun v =>
       match v with
       | JNull => "None"
       | JBool true => "True"
       | JBool false => "False"
       | JInt n => NilZero.string_of_int (Z.to_int n)
       | _ => ""
       end;
     str_of_exn := fun _ => "" |}.

Definition sample_badge (badge_id date name issuer : string) : json :=
  JDict [("id", JStr badge_id);
         ("issued_at_date", JStr date);
         ("badge_template",
          JDict [("name", JStr name);
                 ("image_url", JStr ("https://images.credly.com/" ++ badge_id ++ ".png"));
                 ("issuer",
                  JDict [("entities",
                          JList [JDict [("entity", JDict [("name", JStr issuer)])]])])])].

Definition ibm_badge (badge_id name : string) : json :=
  sample_badge badge_id "2024-05-01" name "IBM".


(** Five badges of four issuers, and the collection [group_badges]
    makes of them. *)
Definition sample_badges : list json :=
  [sample_badge "1" "2020-03-01" "Cloud" "IBM";
   sample_badge "2" "2021-07-15" "Zebra" "Zed";
   sample_badge "3" "2022-01-10" "Data" "IBM";
   sample_badge "4" "2019-11-30" "Cilium" "Isovalent";
   sample_badge "5" "2019-11-30" "Anvil" "Acme"].

Definition sample_groups : Groups :=
  [(JStr "IBM", [sample_badge "3" "2022-01-10" "Data" "IBM";
                 sample_badge "1" "2020-03-01" "Cloud" "IBM"]);
   (JStr "Isovalent", [sample_badge "4" "2019-11-30" "Cilium" "Isovalent"]);
   (JStr "Acme", [sample_badge "5" "2019-11-30" "Anvil" "Acme"]);
   (JStr "Zed", [sample_badge "2" "2021-07-15" "Zebra" "Zed"])].

(** The fetch of one IBM badge of the given name. *)
Definition one_badge (name : string) : Network :=
  Parsed (JDict [("data", JList [ibm_badge "7" name])]).

(** The fetch of one badge whose name contains the end marker. *)
Definition marker_in_name : Network := one_badge "x<!-- CREDLY_BADGES_END -->".

(** Documents: the markers in order, the markers reversed, no marker. *)
Definition ordered_doc : World :=
  {| readme := "X" ++ START_MARKER ++ nl ++ "OLD" ++ nl ++ END_MARKER ++ "Y";
     stdout := []; stderr := []; reads := 0; writes := [] |}.

Definition reversed_doc : World :=
  {| readme := END_MARKER ++ nl ++ START_MARKER;
     stdout := []; stderr := []; reads := 0; writes := [] |}.

Definition unmarked_doc : World :=
  {| readme := "# Hello"; stdout := []; stderr := []; reads := 0; writes := [] |}.


(** The fetch of one badge whose name ends in a carriage return. *)
Definition cr_in_name : Network := one_badge ("x" ++ cr).


(** What the keys and the records of the input can be. *)
Definition is_object (v : json) : Prop := exists d, v = JDict d.

Definition is_string (k : json) : Prop := exists s, k = JStr s.

(** One object and one null: a list [group_badges] cannot group. *)
Definition mixed_badges : list json := [ibm_badge "7" "Cloud"; JNull].

(* ================================================================== *)
(** * Properties *)

(** ** issuer_name *)

Lemma issuer_name_follow (badge : json) :
  issuer_name badge =
  try_except (follow issuer_path badge) is_KeyError_or_IndexError (Ok (JStr "Other")).
Proof.
  unfold issuer_name, issuer_path, follow, subscript.
  repeat match goal with
         | |- context [bind ?c _] => destruct c; simpl; try reflexivity
         end.
Qed.

Lemma subscript_unsupported (v : json) (s : step) :
  supports v s = false -> subscript v s = Raise TypeError.
Proof.
  destruct s, v; simpl; intros H; try discriminate; reflexivity.
Qed.

Lemma subscript_supported (v : json) (s : step) (e : exn) :
  supports v s = true -> subscript v s = Raise e ->
  is_KeyError_or_IndexError e = true.
Proof.
  destruct s as [k | i], v as [ | b | n | t | l | d]; simpl; try discriminate; intros _.
  - destruct (dict_lookup k d); intros [= <-]; reflexivity.
  - destruct (seq_index i (String.length t)) as [n | ];
      [destruct (String.get n t) | ]; intros [= <-]; reflexivity.
  - destruct (seq_index i (List.length l)) as [n | ];
      [destruct (nth_error l n) | ]; intros [= <-]; reflexivity.
  - intros [= <-]; reflexivity.
Qed.

Lemma follow_unsupported (p : list step) (v : json) :
  supported_along p v = false -> follow p v = Raise TypeError.
Proof.
  revert v; induction p as [ | s p IH]; intros v; simpl; [discriminate | ].
  destruct (supports v s) eqn:Hs; simpl.
  - destruct (subscript v s) as [x | e]; simpl; [apply IH | discriminate].
  - intros _. now rewrite (subscript_unsupported _ _ Hs).
Qed.

Lemma follow_supported (p : list step) (v : json) (e : exn) :
  supported_along p v = true -> follow p v = Raise e ->
  is_KeyError_or_IndexError e = true.
Proof.
  revert v; induction p as [ | s p IH]; intros v; simpl; [discriminate | ].
  intros [Hs Hrest]%andb_prop.
  destruct (subscript v s) as [x | e'] eqn:Hsub; simpl.
  - now apply IH.
  - intros [= <-]. exact (subscript_supported _ _ _ Hs Hsub).
Qed.

(** C3 (as amended): [issuer_name] returns the value reached by the
    traversal badge_template.issuer.entities[0].entity.name, or the
    sentinel "Other" when a step fails on a missing key or index; it
    raises TypeError exactly when some value met on the way does not
    support the subscript applied to it. *)
Theorem issuer_name_result (badge : json) :
  if supported_along issuer_path badge then
    (exists name, follow issuer_path badge = Ok name /\ issuer_name badge = Ok name)
    \/ (exists e, follow issuer_path badge = Raise e
                  /\ is_KeyError_or_IndexError e = true
                  /\ issuer_name badge = Ok (JStr "Other"))
  else issuer_name badge = Raise TypeError.
Proof.
  rewrite issuer_name_follow.
  destruct (supported_along issuer_path badge) eqn:Hsup.
  - destruct (follow issuer_path badge) as [name | e] eqn:Hf.
    + left. exists name. split; reflexivity.
    + right. exists e. pose proof (follow_supported _ _ _ Hsup Hf) as He.
      repeat split; trivial. unfold try_except. now rewrite He.
  - now rewrite (follow_unsupported _ _ Hsup).
Qed.

(** C3, counterexample: a record whose template is null makes
    [issuer_name] raise. *)
Lemma issuer_name_null_template_raises :
  issuer_name (JDict [("badge_template", JNull)]) = Raise TypeError.
Proof. reflexivity. Qed.

(* ================================================================== *)
(** ** Strings *)

Section StringFacts.
Local Open Scope nat_scope.

Lemma append_assoc (a b c : string) : (a ++ b) ++ c = a ++ b ++ c.
Proof. induction a; simpl; congruence. Qed.

Lemma length_append (a b : string) :
  String.length (a ++ b) = String.length a + String.length b.
Proof. induction a; simpl; congruence. Qed.

Lemma str_take_drop (n : nat) (s : string) : str_take n s ++ str_drop n s = s.
Proof.
  revert s; induction n as [ | n IH]; intros [ | c s]; simpl; trivial.
  now rewrite IH.
Qed.

Lemma length_str_take (n : nat) (s : string) :
  n <= String.length s -> String.length (str_take n s) = n.
Proof.
  revert s; induction n as [ | n IH]; intros [ | c s]; simpl; trivial; try lia.
  intros H. rewrite IH; lia.
Qed.

Lemma length_str_drop (n : nat) (s : string) :
  String.length (str_drop n s) = String.length s - n.
Proof.
  revert s; induction n as [ | n IH]; intros [ | c s]; simpl; trivial.
Qed.

Lemma str_take_app (a b : string) : str_take (String.length a) (a ++ b) = a.
Proof. induction a; simpl; [now destruct b | congruence]. Qed.

Lemma str_drop_app (a b : string) : str_drop (String.length a) (a ++ b) = b.
Proof. induction a; simpl; [now destruct b | congruence]. Qed.

Lemma str_drop_app_le (n : nat) (a b : string) :
  n <= String.length a -> str_drop n (a ++ b) = str_drop n a ++ b.
Proof.
  revert a; induction n as [ | n IH]; intros [ | c a]; simpl; trivial; try lia.
  intros H. apply IH. lia.
Qed.

Lemma str_drop_add (n m : nat) (s : string) :
  str_drop (n + m) s = str_drop m (str_drop n s).
Proof.
  revert s; induction n as [ | n IH]; intros [ | c s]; simpl; trivial.
  now destruct m.
Qed.

Lemma starts_with_app (sub r : string) : starts_with sub (sub ++ r) = true.
Proof. induction sub; simpl; [trivial | now rewrite Ascii.eqb_refl]. Qed.

Lemma starts_with_inv (sub s : string) :
  starts_with sub s = true -> s = sub ++ str_drop (String.length sub) s.
Proof.
  revert s; induction sub as [ | a sub IH]; intros [ | c s]; simpl; trivial;
    try discriminate.
  intros [Hc Hs]%andb_prop. apply Ascii.eqb_eq in Hc. subst c.
  f_equal. now apply IH.
Qed.

(** Whether [sub] starts [a ++ y] is decided inside [a] when [a] is at
    least as long as [sub]. *)
Lemma starts_with_app_long (sub a y : string) :
  String.length sub <= String.length a ->
  starts_with sub (a ++ y) = starts_with sub a.
Proof.
  revert a; induction sub as [ | c sub IH]; intros [ | d a]; simpl; trivial; try lia.
  intros H. rewrite IH; [trivial | lia].
Qed.

(** If [sub] starts [a ++ c y] and reaches beyond [a], its character at
    position [length a] is [c]. *)
Lemma starts_with_app_char (sub a : string) (c : ascii) (y : string) :
  starts_with sub (a ++ String c y) = true ->
  String.length a < String.length sub ->
  String.get (String.length a) sub = Some c.
Proof.
  revert a; induction sub as [ | d sub IH]; intros [ | e a]; simpl; try lia.
  - intros [Hc _]%andb_prop _. apply Ascii.eqb_eq in Hc. now subst.
  - intros [_ Hs]%andb_prop Hlen. apply IH; [trivial | lia].
Qed.

Lemma find_at_spec (sub s : string) (i : nat) :
  (find_at sub s i = (-1)%Z /\ absent sub s) \/
  (exists n, find_at sub s i = Z.of_nat (i + n) /\ first_at sub s n).
Proof.
  revert i; induction s as [ | c s IH]; intros i.
  - simpl. destruct (starts_with sub "") eqn:H0.
    + right. exists 0. rewrite Nat.add_0_r. repeat split; simpl; trivial; lia.
    + left. split; trivial. intros [ | m]; simpl; trivial; lia.
  - unfold find_at; fold find_at.
    destruct (starts_with sub (String c s)) eqn:H0.
    + right. exists 0. rewrite Nat.add_0_r. repeat split; simpl; trivial; lia.
    + destruct (IH (S i)) as [[Hf Ha] | (n & Hf & Hle & Hn & Hbefore)].
      * left. split; trivial. intros [ | m] Hm; simpl; trivial.
        apply Ha. simpl in Hm. lia.
      * right. exists (S n). rewrite Hf. split; [f_equal; lia | ].
        repeat split; simpl; trivial; try lia.
        intros [ | m] Hm; simpl; trivial. apply Hbefore. lia.
Qed.

Lemma py_find_spec (s sub : string) :
  (py_find s sub = (-1)%Z /\ absent sub s) \/
  (exists n, py_find s sub = Z.of_nat n /\ first_at sub s n).
Proof. exact (find_at_spec sub s 0). Qed.

Lemma py_find_first_at (s sub : string) (n : nat) :
  first_at sub s n -> py_find s sub = Z.of_nat n.
Proof.
  intros (Hle & Hn & Hbefore).
  destruct (py_find_spec s sub) as [[_ Ha] | (n' & Hf & Hle' & Hn' & Hbefore')].
  - rewrite Ha in Hn; [discriminate | trivial].
  - rewrite Hf. f_equal.
    destruct (Nat.lt_trichotomy n n') as [Hlt | [-> | Hlt]]; trivial.
    + rewrite (Hbefore' _ Hlt) in Hn. discriminate.
    + rewrite (Hbefore _ Hlt) in Hn'. discriminate.
Qed.

Lemma py_find_absent (s sub : string) :
  py_find s sub = (-1)%Z -> absent sub s.
Proof.
  destruct (py_find_spec s sub) as [[_ Ha] | (n & Hf & _)]; trivial.
  rewrite Hf. lia.
Qed.

Lemma py_find_found (s sub : string) (z : Z) :
  py_find s sub = z -> z <> (-1)%Z ->
  exists n, z = Z.of_nat n /\ first_at sub s n.
Proof.
  intros Hz Hneq.
  destruct (py_find_spec s sub) as [[Hf _] | (n & Hf & Hn)]; [congruence | ].
  exists n. split; [congruence | trivial].
Qed.

(** A first occurrence splits the string. *)
Lemma first_at_split (sub s : string) (n : nat) :
  first_at sub s n ->
  s = str_take n s ++ sub ++ str_drop (n + String.length sub) s /\
  String.length (str_take n s) = n.
Proof.
  intros (Hle & Hn & _). split; [ | now apply length_str_take].
  rewrite str_drop_add, <- (starts_with_inv _ _ Hn). symmetry. apply str_take_drop.
Qed.

Lemma slice_to_nat (s : string) (n : nat) :
  n <= String.length s -> slice_to s (Z.of_nat n) = str_take n s.
Proof.
  intros H. unfold slice_to, slice_bound.
  destruct (Z.ltb_spec (Z.of_nat n) 0); [lia | ].
  f_equal. lia.
Qed.

Lemma slice_from_nat (s : string) (n : nat) :
  n <= String.length s -> slice_from s (Z.of_nat n) = str_drop n s.
Proof.
  intros H. unfold slice_from, slice_bound.
  destruct (Z.ltb_spec (Z.of_nat n) 0); [lia | ].
  f_equal. lia.
Qed.

(** The only "<" of either marker is its first character. *)
Lemma START_MARKER_lt (d : nat) :
  String.get d START_MARKER = Some "<"%char -> d = 0.
Proof.
  unfold START_MARKER.
  do 28 (destruct d as [ | d];
         [simpl; intros H; first [reflexivity | discriminate H] | ]).
  simpl. discriminate.
Qed.

Lemma END_MARKER_lt (d : nat) :
  String.get d END_MARKER = Some "<"%char -> d = 0.
Proof.
  unfold END_MARKER.
  do 26 (destruct d as [ | d];
         [simpl; intros H; first [reflexivity | discriminate H] | ]).
  simpl. discriminate.
Qed.

Lemma END_MARKER_no_newline (d : nat) :
  String.get d END_MARKER <> Some (ascii_of_nat 10).
Proof.
  unfold END_MARKER.
  do 26 (destruct d as [ | d]; [simpl; discriminate | ]).
  simpl. discriminate.
Qed.

Lemma get_str_drop (d : nat) (s : string) :
  d < String.length s ->
  exists c t, str_drop d s = String c t /\ String.get d s = Some c.
Proof.
  revert s; induction d as [ | d IH]; intros [ | c s]; simpl; try lia.
  - intros _. now exists c, s.
  - intros H. apply IH. lia.
Qed.

(** The end marker cannot begin inside an occurrence of the start
    marker. *)
Lemma markers_do_not_overlap (s : string) (n d : nat) :
  starts_with START_MARKER (str_drop n s) = true ->
  starts_with END_MARKER (str_drop (n + d) s) = true ->
  d = 0 \/ String.length START_MARKER <= d.
Proof.
  intros Hs He.
  destruct (Nat.lt_ge_cases d (String.length START_MARKER)) as [Hlt | Hge];
    [left | now right].
  rewrite str_drop_add, (starts_with_inv _ _ Hs) in He.
  rewrite str_drop_app_le in He by lia.
  destruct (get_str_drop d START_MARKER Hlt) as (c & t & Hdrop & Hget).
  rewrite Hdrop in He.
  apply (starts_with_app_char END_MARKER "" c) in He; [ | simpl; lia].
  injection He as <-. now apply START_MARKER_lt.
Qed.

End StringFacts.

(* ================================================================== *)
(** ** Reading in text mode *)

Lemma no_CR_app (a b : string) : no_CR (a ++ b) = no_CR a && no_CR b.
Proof.
  induction a as [ | c a IH]; simpl; trivial. now rewrite IH, andb_assoc.
Qed.

Lemma no_CR_universal_newlines_from (after_cr : bool) (s : string) :
  no_CR (universal_newlines_from after_cr s) = true.
Proof.
  revert after_cr; induction s as [ | c s IH]; intros after_cr; simpl; trivial.
  destruct (Ascii.eqb c CR) eqn:Hcr; simpl; [apply IH | ].
  destruct (Ascii.eqb c LF) eqn:Hlf.
  - destruct after_cr; simpl; apply IH.
  - simpl. rewrite Hcr. simpl. apply IH.
Qed.

(** What is read holds no carriage return. *)
Lemma no_CR_text_of (w : World) : no_CR (text_of w) = true.
Proof. apply no_CR_universal_newlines_from. Qed.

(** A text without carriage returns is read as it is. *)
Lemma universal_newlines_no_CR (s : string) :
  no_CR s = true -> universal_newlines s = s.
Proof.
  unfold universal_newlines. induction s as [ | c s IH]; simpl; trivial.
  intros [Hc Hs]%andb_prop. apply negb_true_iff in Hc. rewrite Hc.
  destruct (Ascii.eqb_spec c LF) as [-> | _]; now rewrite IH.
Qed.


Lemma one_line_head (a : ascii) (sub : string) :
  one_line (String a sub) = true ->
  Ascii.eqb a CR = false /\ Ascii.eqb a LF = false /\ one_line sub = true.
Proof.
  simpl. intros [[Hcr Hlf]%andb_prop Hs]%andb_prop.
  now apply negb_true_iff in Hcr, Hlf.
Qed.

Lemma eqb_other (a c d : ascii) :
  Ascii.eqb a d = false -> Ascii.eqb c d = true -> Ascii.eqb a c = false.
Proof.
  intros Had Hcd. apply Ascii.eqb_eq in Hcd. now subst c.
Qed.

(** A string of one line begins the text read where it begins the text
    of the file. *)
Lemma starts_with_universal_newlines (sub s : string) :
  one_line sub = true ->
  starts_with sub (universal_newlines_from false s) = starts_with sub s.
Proof.
  revert s; induction sub as [ | a sub IH]; intros s Hsub; [now destruct s | ].
  apply one_line_head in Hsub as (Hcr & Hlf & Hsub).
  destruct s as [ | c s]; trivial. cbn [universal_newlines_from].
  destruct (Ascii.eqb c CR) eqn:Hc.
  - simpl. now rewrite Hlf, (eqb_other a c CR Hcr Hc).
  - destruct (Ascii.eqb c LF) eqn:Hc'.
    + simpl. now rewrite Hlf, (eqb_other a c LF Hlf Hc').
    + simpl. now rewrite IH.
Qed.

Lemma absent_cons (sub : string) (c : ascii) (s : string) :
  absent sub (String c s) <-> starts_with sub (String c s) = false /\ absent sub s.
Proof.
  unfold absent. split.
  - intros H. split.
    + exact (H 0%nat (Nat.le_0_l _)).
    + intros m Hm. apply (H (S m)). simpl. lia.
  - intros [H0 H] [ | m] Hm; [exact H0 | ]. apply H. simpl in Hm. lia.
Qed.

(** A non-empty string of one line occurs in the text read exactly when
    it occurs in the file. *)
Lemma absent_universal_newlines (a : ascii) (sub s : string) (after_cr : bool) :
  one_line (String a sub) = true ->
  absent (String a sub) (universal_newlines_from after_cr s) <-> absent (String a sub) s.
Proof.
  intros Hsub. pose proof (one_line_head a sub Hsub) as (Hcr & Hlf & Hsub').
  revert after_cr; induction s as [ | c s IH]; intros after_cr; [reflexivity | ].
  cbn [universal_newlines_from]. rewrite (absent_cons _ c s).
  destruct (Ascii.eqb c CR) eqn:Hc.
  - rewrite absent_cons, IH. simpl.
    now rewrite Hlf, (eqb_other a c CR Hcr Hc).
  - destruct (Ascii.eqb c LF) eqn:Hc'.
    + assert (Hhead : starts_with (String a sub) (String c s) = false)
        by (simpl; now rewrite (eqb_other a c LF Hlf Hc')).
      destruct after_cr.
      * rewrite IH. tauto.
      * rewrite absent_cons, IH. simpl. rewrite Hlf. simpl in Hhead. tauto.
    + rewrite absent_cons, IH. simpl.
      now rewrite (starts_with_universal_newlines sub s Hsub').
Qed.

Lemma py_find_absent_iff (s sub : string) : py_find s sub = -1 <-> absent sub s.
Proof.
  split; [apply py_find_absent | ]. intros Ha.
  destruct (py_find_spec s sub) as [[Hf _] | (n & _ & Hle & Hn & _)]; trivial.
  rewrite Ha in Hn; [discriminate | trivial].
Qed.

Lemma py_find_text_of (w : World) (a : ascii) (sub : string) :
  one_line (String a sub) = true ->
  py_find (text_of w) (String a sub) = -1 <-> py_find (readme w) (String a sub) = -1.
Proof.
  intros Hsub. rewrite !py_find_absent_iff.
  now apply absent_universal_newlines.
Qed.

(** Each marker is found in the text read exactly when the file holds
    it. *)
Lemma START_MARKER_text_of (w : World) :
  py_find (text_of w) START_MARKER = -1 <-> py_find (readme w) START_MARKER = -1.
Proof. now apply py_find_text_of. Qed.

Lemma END_MARKER_text_of (w : World) :
  py_find (text_of w) END_MARKER = -1 <-> py_find (readme w) END_MARKER = -1.
Proof. now apply py_find_text_of. Qed.

(* ================================================================== *)
(** ** update_readme *)

(** The three outcomes of [update_readme]. *)
Lemma update_readme_eq (section_content : string) (w : World) :
  update_readme section_content w =
  let start := py_find (text_of w) START_MARKER in
  let end_ := py_find (text_of w) END_MARKER in
  let new := new_content (text_of w) start end_ section_content in
  if (start =? -1) || (end_ =? -1) then
    (Raise (SystemExit 1),
     {| readme := readme w; stdout := stdout w;
        stderr := stderr w ++ ["ERROR: Marker comments not found in README.md"];
        reads := S (reads w); writes := writes w |})
  else if String.eqb new (text_of w) then
    (Ok tt,
     {| readme := readme w; stdout := stdout w ++ ["No changes needed."];
        stderr := stderr w; reads := S (reads w); writes := writes w |})
  else
    (Ok tt,
     {| readme := new; stdout := stdout w ++ ["README.md updated with badges."];
        stderr := stderr w; reads := S (reads w); writes := writes w ++ [new] |}).
Proof.
  unfold update_readme, io_bind, read_text, text_of; simpl.
  destruct ((py_find (universal_newlines (readme w)) START_MARKER =? -1)
            || (py_find (universal_newlines (readme w)) END_MARKER =? -1));
    [reflexivity | ].
  destruct (String.eqb _ (universal_newlines (readme w))); reflexivity.
Qed.

(** Whenever both markers are found, [update_readme] returns, and the
    file holds the new content, or was left alone because its text
    already was the new content. *)
Lemma update_readme_found (section_content : string) (w : World) :
  py_find (text_of w) START_MARKER <> -1 ->
  py_find (text_of w) END_MARKER <> -1 ->
  fst (update_readme section_content w) = Ok tt /\
  (readme (snd (update_readme section_content w)) =
     new_content (text_of w) (py_find (text_of w) START_MARKER)
       (py_find (text_of w) END_MARKER) section_content
   \/ (readme (snd (update_readme section_content w)) = readme w /\
       text_of w =
         new_content (text_of w) (py_find (text_of w) START_MARKER)
           (py_find (text_of w) END_MARKER) section_content)).
Proof.
  intros Hs He. rewrite update_readme_eq. cbv zeta.
  destruct (Z.eqb_spec (py_find (text_of w) START_MARKER) (-1)); [contradiction | ].
  destruct (Z.eqb_spec (py_find (text_of w) END_MARKER) (-1)); [contradiction | ].
  simpl. destruct (String.eqb_spec
    (new_content (text_of w) (py_find (text_of w) START_MARKER)
       (py_find (text_of w) END_MARKER) section_content) (text_of w)) as [Heq | Hneq];
    simpl; auto.
Qed.


Lemma markers_split (doc : string) (ns ne : nat) :
  first_at START_MARKER doc ns -> first_at END_MARKER doc ne -> (ns < ne)%nat ->
  exists pre mid suf : string,
    doc = pre ++ START_MARKER ++ mid ++ END_MARKER ++ suf /\
    String.length pre = ns /\
    String.length (pre ++ START_MARKER ++ mid) = ne.
Proof.
  intros Hs He Hlt.
  pose proof (first_at_split _ _ _ Hs) as [Hdoc Hpre].
  destruct Hs as (_ & Hs & _). destruct He as (Hle & He & _).
  assert (Hd : (String.length START_MARKER <= ne - ns)%nat).
  { destruct (markers_do_not_overlap doc ns (ne - ns) Hs) as [H0 | H]; try lia.
    now replace (ns + (ne - ns))%nat with ne by lia. }
  set (k := (ne - ns - String.length START_MARKER)%nat).
  set (rest := str_drop (ns + String.length START_MARKER) doc) in *.
  assert (Hrest : str_drop k rest = END_MARKER ++ str_drop (String.length END_MARKER) (str_drop ne doc)).
  { unfold rest. rewrite <- str_drop_add.
    replace (ns + String.length START_MARKER + k)%nat with ne by lia.
    now apply starts_with_inv. }
  exists (str_take ns doc), (str_take k rest), (str_drop (String.length END_MARKER) (str_drop ne doc)).
  assert (Hk : String.length (str_take k rest) = k).
  { apply length_str_take. unfold rest. rewrite length_str_drop. lia. }
  repeat split; trivial.
  - rewrite <- Hrest, str_take_drop. exact Hdoc.
  - rewrite !length_append, Hpre, Hk. lia.
Qed.

Lemma new_content_split (pre mid suf section_content : string) :
  new_content (pre ++ START_MARKER ++ mid ++ END_MARKER ++ suf)
    (Z.of_nat (String.length pre))
    (Z.of_nat (String.length (pre ++ START_MARKER ++ mid))) section_content
  = pre ++ START_MARKER ++ nl ++ section_content ++ END_MARKER ++ suf.
Proof.
  unfold new_content.
  rewrite <- Nat2Z.inj_add, <- length_append.
  rewrite slice_to_nat, slice_from_nat.
  - rewrite <- (append_assoc pre START_MARKER (mid ++ _)) at 1.
    rewrite str_take_app.
    replace (pre ++ START_MARKER ++ mid ++ END_MARKER ++ suf)
      with ((pre ++ START_MARKER ++ mid) ++ END_MARKER ++ suf)
      by now rewrite !append_assoc.
    rewrite str_drop_app. now rewrite append_assoc.
  - rewrite !length_append. lia.
  - rewrite !length_append. lia.
Qed.

(** With the start marker found before the end marker, the text splits
    at the first occurrence of each. *)
Lemma ordered_markers_split (doc : string) :
  0 <= py_find doc START_MARKER < py_find doc END_MARKER ->
  exists pre mid suf : string,
    doc = old_doc pre mid suf /\
    first_at START_MARKER doc (String.length pre) /\
    first_at END_MARKER doc (String.length (pre ++ START_MARKER ++ mid)).
Proof.
  intros Hord.
  destruct (py_find_found doc START_MARKER _ eq_refl) as (ns & Hns & Hs); [lia | ].
  destruct (py_find_found doc END_MARKER _ eq_refl) as (ne & Hne & He); [lia | ].
  destruct (markers_split doc ns ne Hs He) as (pre & mid & suf & Hdoc & Hpre & Hmid);
    [lia | ].
  exists pre, mid, suf. subst ns ne. auto.
Qed.

Lemma update_readme_old_doc (section_content pre mid suf : string) (w : World) :
  text_of w = old_doc pre mid suf ->
  first_at START_MARKER (text_of w) (String.length pre) ->
  first_at END_MARKER (text_of w) (String.length (pre ++ START_MARKER ++ mid)) ->
  fst (update_readme section_content w) = Ok tt /\
  (readme (snd (update_readme section_content w)) = new_doc pre section_content suf
   \/ (readme (snd (update_readme section_content w)) = readme w /\
       text_of w = new_doc pre section_content suf)).
Proof.
  intros Hdoc Hs He. apply py_find_first_at in Hs, He.
  destruct (update_readme_found section_content w) as [Hret Hnew];
    try (rewrite ?Hs, ?He; lia).
  split; trivial.
  rewrite Hs, He in Hnew. rewrite Hdoc in Hnew at 1 3.
  unfold old_doc in Hnew. rewrite new_content_split in Hnew. exact Hnew.
Qed.




(** C2 (as amended): when either marker is absent, [update_readme] prints
    the error, writes nothing and exits with status 1; when both markers
    are found it does not abort, whatever their order. *)
Theorem update_readme_markers (section_content : string) (w : World) :
  (py_find (readme w) START_MARKER = -1 \/ py_find (readme w) END_MARKER = -1 ->
   update_readme section_content w =
     (Raise (SystemExit 1),
      {| readme := readme w; stdout := stdout w;
         stderr := stderr w ++ ["ERROR: Marker comments not found in README.md"];
         reads := S (reads w); writes := writes w |})) /\
  (py_find (readme w) START_MARKER <> -1 /\ py_find (readme w) END_MARKER <> -1 ->
   fst (update_readme section_content w) = Ok tt).
Proof.
  rewrite <- (START_MARKER_text_of w), <- (END_MARKER_text_of w). split.
  - intros H. rewrite update_readme_eq. cbv zeta.
    destruct H as [-> | ->]; [reflexivity | ].
    now rewrite orb_true_r.
  - intros [Hs He]. now apply update_readme_found.
Qed.

Lemma update_readme_markers_witness :
  (py_find (readme unmarked_doc) START_MARKER = -1
   \/ py_find (readme unmarked_doc) END_MARKER = -1) /\
  update_readme "NEW" unmarked_doc =
    (Raise (SystemExit 1),
     {| readme := readme unmarked_doc; stdout := stdout unmarked_doc;
        stderr := stderr unmarked_doc
                  ++ ["ERROR: Marker comments not found in README.md"];
        reads := S (reads unmarked_doc); writes := writes unmarked_doc |}) /\
  (py_find (readme ordered_doc) START_MARKER <> -1
   /\ py_find (readme ordered_doc) END_MARKER <> -1) /\
  fst (update_readme "NEW" ordered_doc) = Ok tt.
Proof.
  assert (H1 : py_find (readme unmarked_doc) START_MARKER = -1
               \/ py_find (readme unmarked_doc) END_MARKER = -1)
    by (left; reflexivity).
  assert (H2 : py_find (readme ordered_doc) START_MARKER <> -1
               /\ py_find (readme ordered_doc) END_MARKER <> -1)
    by (split; vm_compute; discriminate).
  split; [exact H1 | ].
  split; [exact (proj1 (update_readme_markers "NEW" unmarked_doc) H1) | ].
  split; [exact H2 | ].
  exact (proj2 (update_readme_markers "NEW" ordered_doc) H2).
Defined.

(** C2, counterexample: with the start marker after the end marker the
    patcher does not abort, it writes a document. *)
Lemma update_readme_reversed_markers_writes :
  py_find (readme reversed_doc) END_MARKER = 0 /\
  py_find (readme reversed_doc) START_MARKER = 27 /\
  update_readme "NEW" reversed_doc =
    (Ok tt,
     {| readme := END_MARKER ++ nl ++ START_MARKER ++ nl ++ "NEW"
                  ++ END_MARKER ++ nl ++ START_MARKER;
        stdout := ["README.md updated with badges."]; stderr := []; reads := 1;
        writes := [END_MARKER ++ nl ++ START_MARKER ++ nl ++ "NEW"
                   ++ END_MARKER ++ nl ++ START_MARKER] |}).
Proof.
  split; [ | split]; vm_compute; reflexivity.
Qed.

(* ================================================================== *)
(** ** Dict keys *)

Lemma py_eq_norm (a b : json) :
  hashable a = true -> hashable b = true ->
  py_eq a b = true <-> norm_key a = norm_key b.
Proof.
  destruct a as [ | x | m | s | la | da], b as [ | y | n | t | lb | db];
    simpl; try discriminate; intros _ _; try (split; [discriminate | congruence]);
    try tauto.
  - destruct x, y; simpl; split; congruence.
  - rewrite Z.eqb_eq. split; congruence.
  - rewrite Z.eqb_eq. split; congruence.
  - rewrite Z.eqb_eq. split; congruence.
  - rewrite String.eqb_eq. split; congruence.
Qed.

Lemma py_eq_false_norm (a b : json) :
  hashable a = true -> hashable b = true ->
  py_eq a b = false <-> norm_key a <> norm_key b.
Proof.
  intros Ha Hb. rewrite <- (py_eq_norm a b Ha Hb).
  destruct (py_eq a b); split; congruence.
Qed.

Lemma py_eq_JStr_r (k : json) (s : string) : py_eq k (JStr s) = true <-> k = JStr s.
Proof.
  destruct k; simpl; try (split; [discriminate | congruence]).
  rewrite String.eqb_eq. split; congruence.
Qed.

Lemma keys_app {V : Type} (a b : list (json * V)) : keys (a ++ b) = (keys a ++ keys b)%list.
Proof. apply map_app. Qed.

Lemma groups_lookup_Some {V : Type} (k : json) (d : list (json * V)) (v : V) :
  groups_lookup k d = Some v -> exists k', In (k', v) d /\ py_eq k' k = true.
Proof.
  induction d as [ | [k' v'] d IH]; simpl; [discriminate | ].
  destruct (py_eq k' k) eqn:Hk.
  - intros [= <-]. exists k'. auto.
  - intros H. destruct (IH H) as (k'' & Hin & Heq). exists k''. auto.
Qed.

Lemma groups_lookup_None {V : Type} (k : json) (d : list (json * V)) :
  groups_lookup k d = None -> forall k', In k' (keys d) -> py_eq k' k = false.
Proof.
  induction d as [ | [k' v'] d IH]; simpl; [tauto | ].
  destruct (py_eq k' k) eqn:Hk; [discriminate | ].
  intros H k'' [<- | Hin]; auto.
Qed.

Lemma dict_set_fresh {V : Type} (k : json) (v : V) (d : list (json * V)) :
  (forall k', In k' (keys d) -> py_eq k' k = false) ->
  dict_set k v d = (d ++ [(k, v)])%list.
Proof.
  induction d as [ | [k' v'] d IH]; simpl; trivial.
  intros H. rewrite (H k') by auto. f_equal. apply IH. auto.
Qed.

(** Inserting items whose keys are new and distinct appends them. *)
Lemma fold_dict_set_fresh {V : Type} (items acc : list (json * V)) :
  keys_hashable (acc ++ items) -> keys_distinct (acc ++ items) ->
  fold_left (fun d kv => dict_set (fst kv) (snd kv) d) items acc = (acc ++ items)%list.
Proof.
  revert acc; induction items as [ | [k v] items IH]; intros acc Hh Hd; simpl.
  - now rewrite app_nil_r.
  - assert (Hfresh : forall k', In k' (keys acc) -> py_eq k' k = false).
    { intros k' Hin. unfold keys_hashable, keys_distinct in *.
      rewrite keys_app in Hh, Hd. simpl in Hh, Hd.
      rewrite Forall_forall in Hh.
      apply py_eq_false_norm.
      - apply Hh, in_or_app. auto.
      - apply Hh, in_or_app. simpl. auto.
      - rewrite map_app in Hd. simpl in Hd.
        apply NoDup_remove_2 in Hd. intros Heq. apply Hd.
        apply in_or_app. left. rewrite <- Heq. now apply in_map. }
    rewrite (dict_set_fresh k v acc Hfresh).
    rewrite IH; rewrite <- app_assoc; simpl; trivial.
Qed.

Lemma dict_of_items_distinct {V : Type} (items : list (json * V)) :
  keys_hashable items -> keys_distinct items -> dict_of_items items = items.
Proof. intros Hh Hd. unfold dict_of_items. now rewrite fold_dict_set_fresh. Qed.

Lemma dict_merge_distinct {V : Type} (a b : list (json * V)) :
  keys_hashable (a ++ b) -> keys_distinct (a ++ b) -> dict_merge a b = (a ++ b)%list.
Proof. intros Hh Hd. unfold dict_merge. now rewrite fold_dict_set_fresh. Qed.

(* ================================================================== *)
(** ** The first loop of group_badges *)

Lemma setdefault_append_cases (issuer badge : json) (groups : Groups) :
  (exists g1 k l g2,
      groups = (g1 ++ (k, l) :: g2)%list /\
      setdefault_append issuer badge groups = (g1 ++ (k, (l ++ [badge])%list) :: g2)%list /\
      py_eq k issuer = true)
  \/ (setdefault_append issuer badge groups = (groups ++ [(issuer, [badge])])%list /\
      forall k, In k (keys groups) -> py_eq k issuer = false).
Proof.
  induction groups as [ | [k l] groups IH]; simpl.
  - right. split; trivial. tauto.
  - destruct (py_eq k issuer) eqn:Hk.
    + left. exists [], k, l, groups. auto.
    + destruct IH as [(g1 & k' & l' & g2 & -> & -> & Hk') | [-> Hnone]].
      * left. exists ((k, l) :: g1), k', l', g2. auto.
      * right. split; trivial. intros k' [<- | Hin]; auto.
Qed.

Lemma filter_snoc {A : Type} (f : A -> bool) (l : list A) (x : A) :
  filter f (l ++ [x]) = (filter f l ++ (if f x then [x] else []))%list.
Proof. rewrite filter_app. reflexivity. Qed.

Lemma group_step_grouped (done : list json) (groups groups' : Groups) (badge : json) :
  grouped_of done groups -> group_step groups badge = Ok groups' ->
  grouped_of (done ++ [badge]) groups'.
Proof.
  intros [Hh Hd Hp Hf Hn]. unfold group_step.
  destruct (issuer_name badge) as [issuer | e] eqn:Hissuer; simpl; [ | discriminate].
  destruct (hashable issuer) eqn:Hi; [ | discriminate]. intros [= <-].
  assert (Hnamed : Forall (fun b => exists n, issuer_name b = Ok n /\ hashable n = true)
                     (done ++ [badge])).
  { apply Forall_app. split; trivial. constructor; [eauto | constructor]. }
  assert (His : forall k, issuer_is k badge = py_eq k issuer).
  { intros k. unfold issuer_is. now rewrite Hissuer. }
  unfold keys_hashable, keys_distinct in *.
  destruct (setdefault_append_cases issuer badge groups)
    as [(g1 & k & l & g2 & -> & -> & Hk) | [-> Hnone]].
  - (* the issuer has a group already *)
    rewrite keys_app in *. simpl in *.
    assert (Hkh : hashable k = true).
    { rewrite Forall_forall in Hh. apply Hh, in_or_app. simpl. auto. }
    assert (Hother : forall k', In k' (keys g1 ++ keys g2) -> py_eq k' issuer = false).
    { intros k' Hin. apply py_eq_false_norm; trivial.
      - rewrite Forall_forall in Hh. apply Hh.
        apply in_app_or in Hin. apply in_or_app. simpl. tauto.
      - apply py_eq_norm in Hk; trivial. rewrite <- Hk.
        rewrite map_app in Hd. simpl in Hd. apply NoDup_remove_2 in Hd.
        intros Heq. apply Hd. rewrite <- Heq, <- map_app. now apply in_map. }
    constructor; trivial.
    + unfold keys_hashable. now rewrite keys_app.
    + unfold keys_distinct. now rewrite keys_app.
    + rewrite map_app, List.concat_app in *. simpl in *.
      etransitivity; [ | apply Permutation_app_tail; exact Hp].
      rewrite <- !app_assoc.
      do 2 apply Permutation_app_head.
      apply Permutation_app_comm.
    + apply Forall_app in Hf as [Hf1 Hf2]. inversion Hf2 as [ | ? ? [Hkl Hne] Hf2']; subst.
      simpl in Hkl.
      assert (Hkeep : forall g, (forall k', In k' (keys g) -> In k' (keys g1 ++ keys g2)) ->
                Forall (fun kv => snd kv = filter (issuer_is (fst kv)) done /\ snd kv <> []) g ->
                Forall (fun kv => snd kv = filter (issuer_is (fst kv)) (done ++ [badge])
                                  /\ snd kv <> []) g).
      { intros g Hsub Hg. rewrite Forall_forall in *. intros [k' l'] Hin.
        destruct (Hg _ Hin) as [Hl' Hne']. simpl in *. split; trivial.
        rewrite filter_snoc, His, Hother, app_nil_r; trivial.
        apply Hsub. apply (in_map fst _ (k', l')), Hin. }
      apply Forall_app. split.
      * apply Hkeep; trivial. intros k' Hin. apply in_or_app. auto.
      * constructor.
        -- simpl. rewrite filter_snoc, His, Hk, <- Hkl. split; trivial.
           now destruct l.
        -- apply Hkeep; trivial. intros k' Hin. apply in_or_app. auto.
  - (* a new group *)
    constructor; trivial.
    + unfold keys_hashable. rewrite keys_app. apply Forall_app. split; trivial.
      constructor; [trivial | constructor].
    + unfold keys_distinct. rewrite keys_app, map_app. simpl.
      apply NoDup_app; [trivial | constructor; [simpl; tauto | constructor] | ].
      intros x Hx [<- | []].
      apply in_map_iff in Hx as (k' & Heq & Hin).
      assert (Hk'h : hashable k' = true)
        by (rewrite Forall_forall in Hh; now apply Hh).
      assert (Hk' : py_eq k' issuer = false) by now apply Hnone.
      apply py_eq_false_norm in Hk'; trivial. now apply Hk'.
    + rewrite map_app, List.concat_app. simpl. now apply Permutation_app_tail.
    + apply Forall_app. split.
      * rewrite Forall_forall in *. intros [k' l'] Hin.
        destruct (Hf _ Hin) as [Hl' Hne']. simpl in *. split; trivial.
        rewrite filter_snoc, His, Hnone, app_nil_r; trivial.
        apply (in_map fst _ (k', l')), Hin.
      * constructor; [ | constructor]. simpl. split; [ | discriminate].
        rewrite filter_snoc, His.
        assert (Hrefl : py_eq issuer issuer = true) by now apply py_eq_norm.
        rewrite Hrefl.
        replace (filter (issuer_is issuer) done) with (@nil json); trivial.
        destruct (filter (issuer_is issuer) done) as [ | j rest] eqn:Hfil; trivial.
        exfalso.
        assert (Hj : In j (filter (issuer_is issuer) done)) by (rewrite Hfil; now left).
        apply filter_In in Hj as [Hin Hmatch].
        apply (Permutation_in _ (Permutation_sym Hp)) in Hin.
        apply in_concat in Hin as (l' & Hl' & Hjl').
        apply in_map_iff in Hl' as ([k' l''] & Heq & Hkl). simpl in Heq. subst l''.
        rewrite Forall_forall in Hf. destruct (Hf _ Hkl) as [Hfl _]. simpl in Hfl.
        rewrite Hfl in Hjl'. apply filter_In in Hjl' as [Hjdone Hk'].
        rewrite Forall_forall in Hn. destruct (Hn _ Hjdone) as (n & Hjn & Hnh).
        unfold issuer_is in Hmatch, Hk'. rewrite Hjn in Hmatch, Hk'.
        assert (Hk'h : hashable k' = true).
        { rewrite Forall_forall in Hh. apply Hh. apply (in_map fst _ (k', l')), Hkl. }
        apply py_eq_norm in Hmatch, Hk'; trivial.
        assert (Hcontra : py_eq k' issuer = true).
        { apply py_eq_norm; trivial. congruence. }
        rewrite Hnone in Hcontra; [discriminate | ].
        apply (in_map fst _ (k', l')), Hkl.
Qed.

Lemma foldM_group_step_grouped (bs done : list json) (groups groups' : Groups) :
  grouped_of done groups -> foldM group_step bs groups = Ok groups' ->
  grouped_of (done ++ bs) groups'.
Proof.
  revert done groups; induction bs as [ | b bs IH]; intros done groups Hg; simpl.
  - intros [= <-]. now rewrite app_nil_r.
  - destruct (group_step groups b) as [g1 | e] eqn:Hstep; simpl; [ | discriminate].
    intros H. replace (done ++ b :: bs)%list with ((done ++ [b]) ++ bs)%list
      by now rewrite <- app_assoc.
    apply (IH _ g1); trivial. now apply (group_step_grouped done groups).
Qed.

Lemma grouped_of_nil : grouped_of [] [].
Proof. constructor; simpl; constructor. Qed.

Lemma first_loop_grouped (bs : list json) (groups : Groups) :
  foldM group_step bs [] = Ok groups -> grouped_of bs groups.
Proof. intros H. exact (foldM_group_step_grouped bs [] [] groups grouped_of_nil H). Qed.

(* ================================================================== *)
(** ** The order of strings *)

Lemma string_compare_refl (a : string) : String.compare a a = Eq.
Proof. now apply String_as_OT.cmp_eq. Qed.

Lemma string_ltb_trans (a b c : string) :
  String.ltb a b = true -> String.ltb b c = true -> String.ltb a c = true.
Proof.
  unfold String.ltb.
  destruct (String.compare a b) eqn:Hab; try discriminate.
  destruct (String.compare b c) eqn:Hbc; try discriminate. intros _ _.
  apply String_as_OT.cmp_lt in Hab, Hbc.
  pose proof (String_as_OT.lt_trans _ _ _ Hab Hbc) as Hac.
  apply String_as_OT.cmp_lt in Hac. unfold String_as_OT.cmp in Hac. now rewrite Hac.
Qed.




Lemma string_ltb_irrefl (a : string) : String.ltb a a = false.
Proof. unfold String.ltb. now rewrite string_compare_refl. Qed.

Lemma string_ltb_false_neq (a b : string) :
  String.ltb a b = false -> a <> b -> String.ltb b a = true.
Proof.
  unfold String.ltb. rewrite (String.compare_antisym b a).
  destruct (String.compare a b) eqn:Hc; simpl; trivial; try discriminate.
  intros _ Hneq. apply String.compare_eq_iff in Hc. contradiction.
Qed.

(* ================================================================== *)
(** ** Sorting *)

Lemma mapM_Forall2 {A B : Type} (f : A -> Result B) (l : list A) (l' : list B) :
  mapM f l = Ok l' -> Forall2 (fun x y => f x = Ok y) l l'.
Proof.
  revert l'; induction l as [ | x l IH]; intros l'; simpl.
  - intros [= <-]. constructor.
  - destruct (f x) as [y | e] eqn:Hx; simpl; [ | discriminate].
    destruct (mapM f l) as [ys | e]; simpl; [ | discriminate].
    intros [= <-]. constructor; auto.
Qed.

Lemma mapM_pure {A B : Type} (f : A -> Result B) (g : A -> B) (l : list A) :
  Forall (fun x => f x = Ok (g x)) l -> mapM f l = Ok (map g l).
Proof.
  induction 1 as [ | x l Hx _ IH]; simpl; trivial.
  now rewrite Hx, IH.
Qed.

Lemma insert_by_perm {A : Type} (lt : A -> A -> Result bool) (x : A) (l l' : list A) :
  insert_by lt x l = Ok l' -> Permutation (x :: l) l'.
Proof.
  revert l'; induction l as [ | y l IH]; intros l'; simpl.
  - intros [= <-]. reflexivity.
  - destruct (lt x y) as [[ | ] | e]; simpl; try discriminate.
    + intros [= <-]. reflexivity.
    + destruct (insert_by lt x l) as [r | e]; simpl; [ | discriminate].
      intros [= <-]. rewrite perm_swap. now constructor; apply IH.
Qed.

Lemma py_sort_perm {A : Type} (lt : A -> A -> Result bool) (l l' : list A) :
  py_sort lt l = Ok l' -> Permutation l l'.
Proof.
  unfold py_sort.
  assert (H : forall acc, foldM (fun acc x => insert_by lt x acc) l acc = Ok l' ->
                          Permutation (acc ++ l) l').
  { revert l'; induction l as [ | x l IH]; intros l' acc; simpl.
    - intros [= <-]. now rewrite app_nil_r.
    - destruct (insert_by lt x acc) as [acc' | e] eqn:Hi; simpl; [ | discriminate].
      intros H. apply IH in H. rewrite <- H.
      apply insert_by_perm in Hi. rewrite <- Hi.
      rewrite <- Permutation_middle. reflexivity. }
  intros Hs. exact (H [] Hs).
Qed.

Lemma insert_pure_In {A : Type} (ltb : A -> A -> bool) (x y : A) (l : list A) :
  In y (insert_pure ltb x l) <-> y = x \/ In y l.
Proof.
  induction l as [ | z l IH]; simpl.
  - intuition.
  - destruct (ltb x z); simpl; rewrite ?IH; intuition.
Qed.

Lemma insert_by_pure {A : Type} (lt : A -> A -> Result bool) (ltb : A -> A -> bool)
    (x : A) (l : list A) :
  (forall y, In y l -> lt x y = Ok (ltb x y)) ->
  insert_by lt x l = Ok (insert_pure ltb x l).
Proof.
  induction l as [ | y l IH]; simpl; trivial.
  intros H. rewrite (H y) by auto. simpl.
  destruct (ltb x y); trivial. rewrite IH by auto. reflexivity.
Qed.

Lemma py_sort_pure {A : Type} (lt : A -> A -> Result bool) (ltb : A -> A -> bool)
    (l : list A) :
  (forall x y, In x l -> In y l -> lt x y = Ok (ltb x y)) ->
  py_sort lt l = Ok (sort_pure ltb l).
Proof.
  unfold py_sort, sort_pure.
  assert (H : forall acc,
             (forall x y, In x (acc ++ l) -> In y (acc ++ l) -> lt x y = Ok (ltb x y)) ->
             foldM (fun acc x => insert_by lt x acc) l acc
             = Ok (fold_left (fun acc x => insert_pure ltb x acc) l acc)).
  { induction l as [ | x l IH]; intros acc Hlt; simpl; trivial.
    rewrite (insert_by_pure lt ltb).
    - simpl. apply IH. intros a b Ha Hb. apply Hlt.
      + apply in_app_or in Ha as [Ha | Ha]; apply in_or_app; simpl; auto.
        apply insert_pure_In in Ha as [-> | Ha]; auto.
      + apply in_app_or in Hb as [Hb | Hb]; apply in_or_app; simpl; auto.
        apply insert_pure_In in Hb as [-> | Hb]; auto.
    - intros y Hy. apply Hlt; apply in_or_app; simpl; auto. }
  intros Hlt. apply (H []). exact Hlt.
Qed.

Section SortByStringKey.
Context {A : Type} (key : A -> string).






End SortByStringKey.

(* ================================================================== *)
(** ** Sorting a group by date *)

Lemma sort_pure_perm {A : Type} (ltb : A -> A -> bool) (l : list A) :
  Permutation l (sort_pure ltb l).
Proof.
  apply (py_sort_perm (fun x y => Ok (ltb x y))).
  now apply py_sort_pure.
Qed.

Lemma insert_pure_map {A B : Type} (f : A -> B) (ltb : A -> A -> bool)
    (ltb' : B -> B -> bool) (x : A) (l : list A) :
  (forall a b, ltb' (f a) (f b) = ltb a b) ->
  insert_pure ltb' (f x) (map f l) = map f (insert_pure ltb x l).
Proof.
  intros H. induction l as [ | y l IH]; simpl; trivial.
  rewrite H. destruct (ltb x y); simpl; trivial. now rewrite IH.
Qed.

Lemma sort_pure_map {A B : Type} (f : A -> B) (ltb : A -> A -> bool)
    (ltb' : B -> B -> bool) (l : list A) :
  (forall a b, ltb' (f a) (f b) = ltb a b) ->
  sort_pure ltb' (map f l) = map f (sort_pure ltb l).
Proof.
  intros H. unfold sort_pure.
  change (@nil B) with (map f []). generalize (@nil A) as acc.
  induction l as [ | x l IH]; intros acc; simpl; trivial.
  rewrite (insert_pure_map f ltb ltb') by trivial. apply IH.
Qed.



Lemma sort_newest_first_perm (l : list json) : Permutation l (sort_newest_first l).
Proof.
  unfold sort_newest_first.
  rewrite <- Permutation_rev, <- sort_pure_perm. apply Permutation_rev.
Qed.



Lemma date_of_key (b : json) :
  has_date_string b -> issued_at_key b = Ok (JStr (date_of b)).
Proof. intros [s Hs]. unfold date_of. now rewrite Hs. Qed.

(** On badges whose dates are strings, [list.sort] by date, reversed,
    is the stable sort, newest first. *)
Lemma list_sort_dates (l : list json) :
  Forall has_date_string l ->
  list_sort issued_at_key true l = Ok (sort_newest_first l).
Proof.
  intros Hl. unfold list_sort.
  rewrite (mapM_pure _ (fun b => (JStr (date_of b), b))).
  2:{ eapply Forall_impl; [ | exact Hl]. intros b Hb. simpl.
      now rewrite (date_of_key b Hb). }
  simpl.
  rewrite (py_sort_pure _ (fun p q => String.ltb (date_of (snd p)) (date_of (snd q)))).
  2:{ intros p q Hp Hq. apply in_rev in Hp, Hq.
      apply in_map_iff in Hp as (a & <- & _). apply in_map_iff in Hq as (b & <- & _).
      reflexivity. }
  simpl. f_equal. unfold sort_newest_first.
  rewrite <- map_rev.
  rewrite (sort_pure_map (fun b => (JStr (date_of b), b)) date_ltb) by reflexivity.
  rewrite <- map_rev, map_map. simpl. apply map_id.
Qed.

Lemma mapM_keyed_snd {A : Type} (key : A -> Result json) (l : list A)
    (keyed : list (json * A)) :
  mapM (fun x => k <- key x ;; Ok (k, x)) l = Ok keyed -> map snd keyed = l.
Proof.
  revert keyed; induction l as [ | x l IH]; intros keyed; simpl.
  - now intros [= <-].
  - destruct (key x) as [k | e]; simpl; [ | discriminate].
    destruct (mapM _ l) as [r | e]; simpl; [ | discriminate].
    intros [= <-]. simpl. now rewrite IH.
Qed.

Lemma list_sort_perm {A : Type} (key : A -> Result json) (reverse : bool) (l l' : list A) :
  list_sort key reverse l = Ok l' -> Permutation l l'.
Proof.
  unfold list_sort.
  destruct (mapM _ l) as [keyed | e] eqn:Hk; simpl; [ | discriminate].
  destruct (py_sort _ _) as [sorted | e] eqn:Hs; simpl; [ | discriminate].
  intros [= <-]. apply py_sort_perm in Hs.
  rewrite <- (mapM_keyed_snd key l keyed Hk). apply Permutation_map.
  destruct reverse; [ | exact Hs].
  transitivity (rev keyed); [apply Permutation_rev | ].
  transitivity sorted; [exact Hs | apply Permutation_rev].
Qed.

Lemma sort_groups_Forall2 (groups groups' : Groups) :
  sort_groups groups = Ok groups' -> Forall2 group_sorted groups groups'.
Proof.
  intros H. apply mapM_Forall2 in H.
  eapply Forall2_impl; [ | exact H]. intros [k l] [k' l']; unfold group_sorted; simpl.
  destruct (list_sort issued_at_key true l) as [r | e]; simpl; [ | discriminate].
  intros [= <- <-]. split; reflexivity.
Qed.

Lemma sort_groups_keys (groups groups' : Groups) :
  Forall2 group_sorted groups groups' -> keys groups' = keys groups.
Proof.
  unfold keys.
  induction 1 as [ | kv kv' g g' [Hk _] _ IH]; simpl; trivial.
  now rewrite Hk, IH.
Qed.

Lemma sort_groups_concat (groups groups' : Groups) :
  Forall2 group_sorted groups groups' ->
  Permutation (List.concat (map snd groups)) (List.concat (map snd groups')).
Proof.
  induction 1 as [ | kv kv' g g' [_ Hs] _ IH]; simpl; trivial.
  apply Permutation_app; trivial. now apply list_sort_perm in Hs.
Qed.

Lemma sort_groups_In (groups groups' : Groups) (k : json) (l' : list json) :
  Forall2 group_sorted groups groups' -> In (k, l') groups' ->
  exists l, In (k, l) groups /\ list_sort issued_at_key true l = Ok l'.
Proof.
  induction 1 as [ | [k0 l0] [k0' l0'] g g' [Hk Hs] _ IH]; simpl; [tauto | ].
  simpl in Hk, Hs. subst k0'.
  intros [[= -> ->] | Hin].
  - exists l0. auto.
  - destruct (IH Hin) as (l & Hl & Hsl). exists l. auto.
Qed.

(* ================================================================== *)
(** ** Known issuers first *)

Lemma filter_all {A : Type} (f : A -> bool) (l : list A) :
  (forall x, In x l -> f x = true) -> filter f l = l.
Proof.
  induction l as [ | x l IH]; simpl; trivial.
  intros H. rewrite (H x) by auto. f_equal. apply IH. auto.
Qed.

Lemma filter_filter_and {A : Type} (f g : A -> bool) (l : list A) :
  filter f (filter g l) = filter (fun x => g x && f x) l.
Proof.
  induction l as [ | x l IH]; simpl; trivial.
  destruct (g x); simpl; [destruct (f x) | ]; now rewrite IH.
Qed.

Lemma keys_filter_In {V : Type} (f : json * V -> bool) (d : list (json * V)) (k : json) :
  In k (keys (filter f d)) -> In k (keys d).
Proof.
  unfold keys. intros H. apply in_map_iff in H as (kv & <- & Hin).
  apply filter_In in Hin as [Hin _]. now apply in_map.
Qed.

Lemma NoDup_keys_filter {V : Type} (f : json * V -> bool) (d : list (json * V)) :
  NoDup (keys d) -> NoDup (keys (filter f d)).
Proof.
  unfold keys. induction d as [ | kv d IH]; simpl; trivial.
  intros H. inversion H as [ | ? ? Hnotin Hd]; subst.
  destruct (f kv); simpl; auto.
  constructor; auto. intros Hin. apply Hnotin. now apply (keys_filter_In f).
Qed.

Lemma groups_remove_filter {V : Type} (n : string) (d : list (json * V)) :
  NoDup (keys d) ->
  groups_remove (JStr n) d = filter (fun kv => negb (py_eq (fst kv) (JStr n))) d.
Proof.
  unfold keys. induction d as [ | [k v] d IH]; simpl; trivial.
  intros H. inversion H as [ | ? ? Hnotin Hd]; subst.
  destruct (py_eq k (JStr n)) eqn:Hk; simpl.
  - apply py_eq_JStr_r in Hk. subst k. symmetry. apply filter_all.
    intros [k' v'] Hin. simpl. apply negb_true_iff.
    destruct (py_eq k' (JStr n)) eqn:Hk'; trivial.
    apply py_eq_JStr_r in Hk'. subst k'. exfalso. apply Hnotin.
    apply (in_map fst _ (JStr n, v')), Hin.
  - f_equal. now apply IH.
Qed.

Lemma groups_lookup_filter {V : Type} (k : json) (f : json * V -> bool)
    (d : list (json * V)) :
  (forall kv, In kv d -> py_eq (fst kv) k = true -> f kv = true) ->
  groups_lookup k (filter f d) = groups_lookup k d.
Proof.
  induction d as [ | [k' v] d IH]; simpl; trivial.
  intros H. destruct (py_eq k' k) eqn:Hk.
  - rewrite (H (k', v)) by auto. simpl. now rewrite Hk.
  - destruct (f (k', v)); simpl; rewrite ?Hk; apply IH; auto.
Qed.

Lemma picks_ext (names : list string) (g g' : Groups) :
  (forall n, In n names -> groups_lookup (JStr n) g' = groups_lookup (JStr n) g) ->
  picks names g' = picks names g.
Proof.
  unfold picks. induction names as [ | n names IH]; simpl; trivial.
  intros H. rewrite (H n) by auto. f_equal. apply IH. auto.
Qed.

Lemma picks_drop_name (n : string) (names : list string) (g : Groups) :
  ~ In n names -> picks names (filter (drop_name n) g) = picks names g.
Proof.
  intros Hn. apply picks_ext. intros n' Hn'. apply groups_lookup_filter.
  intros [k l] _ Hk. simpl in Hk. apply py_eq_JStr_r in Hk. subst k.
  unfold drop_name. simpl. apply negb_true_iff. apply String.eqb_neq. congruence.
Qed.

Lemma unnamed_cons (n : string) (names : list string) (g : Groups) :
  filter (unnamed names) (filter (drop_name n) g) = filter (unnamed (n :: names)) g.
Proof.
  rewrite filter_filter_and. apply filter_ext. intros kv.
  unfold unnamed, drop_name. simpl. now rewrite negb_orb.
Qed.

(** The comprehension moves the groups of the known issuers, in the
    order of the list, and leaves the others in place. *)
Lemma pop_known_fold (names : list string) (known groups : Groups) :
  NoDup names -> NoDup (keys groups) ->
  (forall k n, In k (keys known) -> In n names -> py_eq k (JStr n) = false) ->
  fold_left pop_known_step names (known, groups)
  = ((known ++ picks names groups)%list, filter (unnamed names) groups).
Proof.
  revert known groups; induction names as [ | n names IH]; intros known groups Hn Hg Hk.
  - simpl. rewrite app_nil_r. f_equal. symmetry. now apply filter_all.
  - inversion Hn as [ | ? ? Hnotin Hn']; subst. simpl.
    destruct (groups_lookup (JStr n) groups) as [l | ] eqn:Hl.
    + rewrite dict_set_fresh by (intros k' Hk'; apply Hk; simpl; auto).
      rewrite groups_remove_filter by trivial.
      rewrite IH; trivial.
      * change (fun kv : json * list json => negb (py_eq (fst kv) (JStr n)))
          with (drop_name n).
        rewrite picks_drop_name, unnamed_cons, <- app_assoc by trivial. reflexivity.
      * now apply NoDup_keys_filter.
      * intros k n' Hin Hn''. rewrite keys_app in Hin.
        apply in_app_or in Hin as [Hin | [<- | []]].
        -- apply Hk; simpl; auto.
        -- simpl. apply String.eqb_neq. congruence.
    + rewrite IH; trivial.
      * f_equal. apply filter_ext_in. intros [k l] Hin.
        unfold unnamed. simpl.
        rewrite (groups_lookup_None _ _ Hl k); trivial.
        apply (in_map fst _ (k, l)), Hin.
      * intros k n' Hin Hn''. apply Hk; simpl; auto.
Qed.

Lemma lookup_drop_perm (n : string) (g : Groups) (l : list json) :
  NoDup (keys g) -> groups_lookup (JStr n) g = Some l ->
  Permutation ((JStr n, l) :: filter (drop_name n) g) g.
Proof.
  intros Hg Hl. unfold drop_name. rewrite <- (groups_remove_filter n g Hg).
  clear Hg. induction g as [ | [k v] g IH]; simpl in *; [discriminate | ].
  destruct (py_eq k (JStr n)) eqn:Hk.
  - apply py_eq_JStr_r in Hk. injection Hl as ->. now subst k.
  - rewrite perm_swap. constructor. now apply IH.
Qed.

Lemma picks_unnamed_perm (names : list string) (g : Groups) :
  NoDup names -> NoDup (keys g) ->
  Permutation (picks names g ++ filter (unnamed names) g) g.
Proof.
  revert g; induction names as [ | n names IH]; intros g Hn Hg.
  - simpl. now rewrite filter_all.
  - inversion Hn as [ | ? ? Hnotin Hn']; subst.
    rewrite <- unnamed_cons. unfold picks; simpl; fold (picks names g).
    destruct (groups_lookup (JStr n) g) as [l | ] eqn:Hl; simpl.
    + rewrite <- (picks_drop_name n names g Hnotin).
      rewrite IH; trivial; [ | now apply NoDup_keys_filter].
      now apply lookup_drop_perm.
    + rewrite (filter_all (drop_name n)); [now apply IH | ].
      intros [k v] Hin. unfold drop_name. simpl.
      rewrite (groups_lookup_None _ _ Hl k); trivial.
      apply (in_map fst _ (k, v)), Hin.
Qed.

Lemma keys_picks (names : list string) (g : Groups) :
  keys (picks names g)
  = map JStr (filter (has_group g) names).
Proof.
  unfold keys, picks, has_group. induction names as [ | n names IH]; simpl; trivial.
  destruct (groups_lookup (JStr n) g); simpl; now rewrite IH.
Qed.

(* ================================================================== *)
(** ** The other issuers, sorted *)

Lemma py_lt_total (a b : json) :
  hashable a = true -> hashable b = true -> norm_key a <> norm_key b ->
  py_lt a b = Ok false -> py_lt b a = Ok true.
Proof.
  destruct a as [ | x | m | s | la | da], b as [ | y | n | t | lb | db];
    simpl; try discriminate; intros _ _ Hneq [= H]; f_equal.
  - apply Z.ltb_lt. apply Z.ltb_ge in H.
    assert (bool_to_Z x <> bool_to_Z y) by congruence. lia.
  - apply Z.ltb_lt. apply Z.ltb_ge in H. assert (bool_to_Z x <> n) by congruence. lia.
  - apply Z.ltb_lt. apply Z.ltb_ge in H. assert (m <> bool_to_Z y) by congruence. lia.
  - apply Z.ltb_lt. apply Z.ltb_ge in H. assert (m <> n) by congruence. lia.
  - apply string_ltb_false_neq; congruence.
Qed.

Lemma key_lt_JStr (a b : string) : key_lt (JStr a) (JStr b) <-> String.ltb a b = true.
Proof. unfold key_lt. simpl. split; congruence. Qed.

Lemma insert_by_head {A : Type} (lt : A -> A -> Result bool) (x : A) (l l' : list A) :
  insert_by lt x l = Ok l' ->
  l' = x :: l \/ exists y l1 r, l = y :: l1 /\ l' = y :: r.
Proof.
  destruct l as [ | y l]; simpl.
  - intros [= <-]. now left.
  - destruct (lt x y) as [[ | ] | e]; simpl; try discriminate.
    + intros [= <-]. now left.
    + destruct (insert_by lt x l) as [r | e]; simpl; [ | discriminate].
      intros [= <-]. right. now exists y, l, r.
Qed.

Lemma insert_by_item_sorted (x : json * list json) (l l' : Groups) :
  keys_hashable (x :: l) -> keys_distinct (x :: l) ->
  Sorted item_key_lt l -> insert_by item_lt x l = Ok l' -> Sorted item_key_lt l'.
Proof.
  unfold keys_hashable, keys_distinct, keys.
  revert l'; induction l as [ | y l IH]; intros l' Hh Hd Hs; simpl.
  - intros [= <-]. repeat constructor.
  - simpl in Hh, Hd.
    inversion Hh as [ | ? ? Hxh Hh']; subst. inversion Hh' as [ | ? ? Hyh Hlh]; subst.
    inversion Hd as [ | ? ? Hnotin Hd']; subst.
    assert (Hxy : norm_key (fst x) <> norm_key (fst y)).
    { intros Heq. apply Hnotin. simpl. auto. }
    unfold item_lt at 1.
    rewrite (proj2 (py_eq_false_norm _ _ Hxh Hyh) Hxy).
    destruct (py_lt (fst x) (fst y)) as [[ | ] | e] eqn:Hlt; simpl; try discriminate.
    + intros [= <-]. constructor; trivial. constructor. exact Hlt.
    + destruct (insert_by item_lt x l) as [r | e] eqn:Hr; simpl; [ | discriminate].
      intros [= <-]. apply Sorted_inv in Hs as [Hs Hy].
      constructor.
      * apply IH; trivial.
        -- constructor; trivial.
        -- simpl. constructor.
           ++ intros Hin. apply Hnotin. simpl. auto.
           ++ now inversion Hd'.
      * destruct (insert_by_head _ _ _ _ Hr) as [-> | (z & l1 & r' & -> & ->)].
        -- constructor. now apply py_lt_total.
        -- constructor. now inversion Hy.
Qed.

Lemma py_sort_items_sorted (l l' : Groups) :
  keys_hashable l -> keys_distinct l ->
  py_sort item_lt l = Ok l' -> Sorted item_key_lt l'.
Proof.
  unfold py_sort.
  assert (H : forall acc,
             keys_hashable (acc ++ l) -> keys_distinct (acc ++ l) ->
             Sorted item_key_lt acc ->
             foldM (fun acc x => insert_by item_lt x acc) l acc = Ok l' ->
             Sorted item_key_lt l').
  { revert l'; induction l as [ | x l IH]; intros l' acc Hh Hd Hs; simpl.
    - now intros [= <-].
    - destruct (insert_by item_lt x acc) as [acc' | e] eqn:Hi; simpl; [ | discriminate].
      assert (Hperm : Permutation (acc ++ x :: l) (acc' ++ l)).
      { apply insert_by_perm in Hi. rewrite <- Hi. symmetry.
        apply Permutation_middle. }
      assert (Hperm' : Permutation (acc ++ x :: l) ((x :: acc) ++ l)).
      { symmetry. apply Permutation_middle. }
      unfold keys_hashable, keys_distinct, keys in *.
      apply IH.
      + now rewrite <- Hperm.
      + eapply Permutation_NoDup; [ | exact Hd].
        now do 2 apply Permutation_map.
      + apply (insert_by_item_sorted x acc acc'); trivial.
        * unfold keys_hashable, keys. rewrite Hperm' in Hh.
          rewrite map_app in Hh. now apply Forall_app in Hh.
        * unfold keys_distinct, keys.
          assert (Hd2 : NoDup (map norm_key (map fst ((x :: acc) ++ l)))).
          { eapply Permutation_NoDup; [ | exact Hd]. now do 2 apply Permutation_map. }
          rewrite !map_app in Hd2. now apply NoDup_app_remove_r in Hd2. }
  intros Hh Hd. apply (H []); trivial; constructor.
Qed.

(* ================================================================== *)
(** ** group_badges, stage by stage *)

Lemma keys_hashable_perm {V : Type} (a b : list (json * V)) :
  Permutation a b -> keys_hashable a -> keys_hashable b.
Proof.
  unfold keys_hashable, keys. intros Hp. now rewrite Hp.
Qed.

Lemma keys_distinct_perm {V : Type} (a b : list (json * V)) :
  Permutation a b -> keys_distinct a -> keys_distinct b.
Proof.
  unfold keys_distinct, keys. intros Hp. apply Permutation_NoDup.
  now do 2 apply Permutation_map.
Qed.

Lemma keys_distinct_NoDup {V : Type} (d : list (json * V)) :
  keys_distinct d -> NoDup (keys d).
Proof. apply NoDup_map_inv. Qed.

Lemma NoDup_ISSUER_ORDER : NoDup ISSUER_ORDER.
Proof.
  unfold ISSUER_ORDER.
  repeat (constructor; [simpl; intuition discriminate | ]). constructor.
Qed.

(** The stages of [group_badges]: the grouping [g0], the groups sorted
    [g1], and the result: known issuers first, the others sorted. *)
Lemma group_badges_stages (bs : list json) (g : Groups) :
  group_badges (JList bs) = Ok g ->
  exists g0 g1 unknown,
    grouped_of bs g0 /\
    Forall2 group_sorted g0 g1 /\
    py_sort item_lt (filter (unnamed ISSUER_ORDER) g1) = Ok unknown /\
    Permutation g g1 /\
    g = (picks ISSUER_ORDER g1 ++ unknown)%list.
Proof.
  unfold group_badges. cbn [py_iter bind].
  destruct (foldM group_step bs []) as [g0 | e] eqn:H0; cbn [bind]; [ | discriminate].
  destruct (sort_groups g0) as [g1 | e] eqn:H1; cbn [bind]; [ | discriminate].
  apply first_loop_grouped in H0. apply sort_groups_Forall2 in H1.
  pose proof (sort_groups_keys _ _ H1) as Hkeys.
  assert (Hh1 : keys_hashable g1).
  { unfold keys_hashable. rewrite Hkeys. apply (go_hashable _ _ H0). }
  assert (Hd1 : keys_distinct g1).
  { unfold keys_distinct. rewrite Hkeys. apply (go_distinct _ _ H0). }
  rewrite (pop_known_fold ISSUER_ORDER [] g1 NoDup_ISSUER_ORDER
             (keys_distinct_NoDup _ Hd1)) by (simpl; tauto).
  cbn [app].
  destruct (py_sort item_lt (filter (unnamed ISSUER_ORDER) g1)) as [unknown | e] eqn:H2;
    cbn [bind]; [ | discriminate].
  assert (Hperm : Permutation (picks ISSUER_ORDER g1 ++ unknown) g1).
  { rewrite <- (py_sort_perm _ _ _ H2).
    apply picks_unnamed_perm; [apply NoDup_ISSUER_ORDER | now apply keys_distinct_NoDup]. }
  assert (Hh : keys_hashable (picks ISSUER_ORDER g1 ++ unknown))
    by (apply (keys_hashable_perm g1); [now symmetry | trivial]).
  assert (Hd : keys_distinct (picks ISSUER_ORDER g1 ++ unknown))
    by (apply (keys_distinct_perm g1); [now symmetry | trivial]).
  rewrite dict_of_items_distinct.
  - rewrite dict_merge_distinct by trivial.
    intros [= <-]. exists g0, g1, unknown. auto.
  - unfold keys_hashable in *. rewrite keys_app in Hh. now apply Forall_app in Hh.
  - unfold keys_distinct in *. rewrite keys_app, map_app in Hd.
    now apply NoDup_app_remove_l in Hd.
Qed.

(** Every group of the result is one group of the first loop, sorted. *)
Lemma group_badges_group (bs : list json) (g : Groups) (k : json) (l : list json) :
  group_badges (JList bs) = Ok g -> In (k, l) g ->
  list_sort issued_at_key true (filter (issuer_is k) bs) = Ok l /\
  filter (issuer_is k) bs <> [].
Proof.
  intros Hg Hin.
  destruct (group_badges_stages bs g Hg) as (g0 & g1 & unknown & H0 & H1 & _ & Hperm & _).
  apply (Permutation_in _ Hperm) in Hin.
  destruct (sort_groups_In _ _ _ _ H1 Hin) as (l0 & Hl0 & Hs).
  pose proof (go_filter _ _ H0) as Hf. rewrite Forall_forall in Hf.
  destruct (Hf _ Hl0) as [Heq Hne]. simpl in Heq, Hne. now subst l0.
Qed.

(* ================================================================== *)
(** ** group_badges returns on well-formed badges *)

Lemma insert_pure_perm {A : Type} (ltb : A -> A -> bool) (x : A) (l : list A) :
  Permutation (x :: l) (insert_pure ltb x l).
Proof.
  apply (insert_by_perm (fun a b => Ok (ltb a b))). now apply insert_by_pure.
Qed.

(** [py_sort] on a list without repetitions asks only about different
    elements. *)
Lemma py_sort_pure_NoDup {A : Type} (lt : A -> A -> Result bool) (ltb : A -> A -> bool)
    (l : list A) :
  NoDup l ->
  (forall x y, In x l -> In y l -> x <> y -> lt x y = Ok (ltb x y)) ->
  py_sort lt l = Ok (sort_pure ltb l).
Proof.
  unfold py_sort, sort_pure.
  assert (H : forall acc,
             NoDup (acc ++ l) ->
             (forall x y, In x (acc ++ l) -> In y (acc ++ l) -> x <> y ->
                          lt x y = Ok (ltb x y)) ->
             foldM (fun acc x => insert_by lt x acc) l acc
             = Ok (fold_left (fun acc x => insert_pure ltb x acc) l acc)).
  { induction l as [ | x l IH]; intros acc Hnd Hlt; simpl; trivial.
    assert (Hperm : Permutation (acc ++ x :: l) (insert_pure ltb x acc ++ l)).
    { rewrite <- insert_pure_perm. symmetry. apply Permutation_middle. }
    rewrite (insert_by_pure lt ltb).
    - simpl. apply IH.
      + now apply (Permutation_NoDup Hperm).
      + intros a b Ha Hb. apply Hlt; now apply (Permutation_in _ (Permutation_sym Hperm)).
    - intros y Hy. apply Hlt.
      + apply in_or_app. simpl. auto.
      + apply in_or_app. auto.
      + apply NoDup_remove_2 in Hnd. intros <-. apply Hnd, in_or_app. auto. }
  intros Hnd Hlt. now apply (H []).
Qed.

Lemma foldM_total {A S : Type} (f : S -> A -> Result S) (l : list A) (s : S) :
  (forall s x, In x l -> exists s', f s x = Ok s') ->
  exists r, foldM f l s = Ok r.
Proof.
  revert s; induction l as [ | x l IH]; intros s H; simpl.
  - now exists s.
  - destruct (H s x) as [s' Hs']; [simpl; auto | ]. rewrite Hs'. simpl.
    apply IH. intros s0 y Hy. apply H. simpl. auto.
Qed.

Lemma first_loop_total (bs : list json) :
  Forall well_formed_badge bs -> exists g0, foldM group_step bs [] = Ok g0.
Proof.
  intros Hwf. apply foldM_total. intros groups b Hb.
  rewrite Forall_forall in Hwf. destruct (Hwf b Hb) as [[s Hs] _].
  unfold group_step. rewrite Hs. simpl. eauto.
Qed.

(** The keys of the groups are issuer names of badges. *)
Lemma grouped_of_key (bs : list json) (g0 : Groups) (k : json) :
  grouped_of bs g0 -> In k (keys g0) ->
  exists b, In b bs /\ issuer_is k b = true.
Proof.
  intros H0 Hk. apply in_map_iff in Hk as ([k' l] & Hk' & Hin). simpl in Hk'. subst k'.
  pose proof (go_filter _ _ H0) as Hf. rewrite Forall_forall in Hf.
  destruct (Hf _ Hin) as [Hl Hne]. simpl in Hl, Hne.
  destruct l as [ | b l]; [contradiction | ].
  assert (Hb : In b (filter (issuer_is k) bs)) by (rewrite <- Hl; simpl; auto).
  apply filter_In in Hb. now exists b.
Qed.

Lemma grouped_of_string_keys (bs : list json) (g0 : Groups) :
  Forall well_formed_badge bs -> grouped_of bs g0 ->
  Forall (fun k => exists s, k = JStr s) (keys g0).
Proof.
  intros Hwf H0. rewrite Forall_forall. intros k Hk.
  destruct (grouped_of_key bs g0 k H0 Hk) as (b & Hb & Hkb).
  rewrite Forall_forall in Hwf. destruct (Hwf b Hb) as [[s Hs] _].
  unfold issuer_is in Hkb. rewrite Hs in Hkb. apply py_eq_JStr_r in Hkb. eauto.
Qed.

Lemma sort_groups_total (bs : list json) (g0 : Groups) :
  Forall well_formed_badge bs -> grouped_of bs g0 ->
  exists g1, sort_groups g0 = Ok g1.
Proof.
  intros Hwf H0.
  exists (map (fun kv => (fst kv, sort_newest_first (snd kv))) g0).
  apply mapM_pure. pose proof (go_filter _ _ H0) as Hf.
  rewrite Forall_forall in *. intros [k l] Hin. destruct (Hf _ Hin) as [Hl _].
  simpl in *. rewrite list_sort_dates; trivial.
  rewrite Forall_forall. intros b Hb. rewrite Hl in Hb.
  apply filter_In in Hb as [Hb _]. now apply Hwf.
Qed.

Lemma NoDup_keys_In {V : Type} (d : list (json * V)) (k : json) (v1 v2 : V) :
  NoDup (keys d) -> In (k, v1) d -> In (k, v2) d -> v1 = v2.
Proof.
  unfold keys. induction d as [ | [k' v] d IH]; simpl; [tauto | ].
  intros Hnd. inversion Hnd as [ | ? ? Hnotin Hnd']; subst.
  intros [[= -> ->] | H1] [[= <-] | H2]; trivial.
  - exfalso. apply Hnotin. apply (in_map fst _ (_, v2)), H2.
  - exfalso. apply Hnotin. subst. apply (in_map fst _ (_, v1)), H1.
  - now apply IH.
Qed.

Lemma unknown_sort_total (g : Groups) :
  NoDup (keys g) -> Forall (fun k => exists s, k = JStr s) (keys g) ->
  py_sort item_lt g = Ok (sort_pure item_ltb g).
Proof.
  intros Hnd Hstr. apply py_sort_pure_NoDup.
  - now apply NoDup_map_inv in Hnd.
  - intros [k1 l1] [k2 l2] H1 H2 Hneq. rewrite Forall_forall in Hstr.
    destruct (Hstr k1) as [s ->]; [apply (in_map fst _ (_, l1)), H1 | ].
    destruct (Hstr k2) as [t ->]; [apply (in_map fst _ (_, l2)), H2 | ].
    unfold item_lt, item_ltb. simpl.
    destruct (String.eqb_spec s t) as [Heq | Hst]; trivial.
    subst t. exfalso. apply Hneq. f_equal.
    now apply (NoDup_keys_In g (JStr s)).
Qed.

Lemma group_badges_total (bs : list json) :
  Forall well_formed_badge bs -> exists g, group_badges (JList bs) = Ok g.
Proof.
  intros Hwf. unfold group_badges. cbn [py_iter bind].
  destruct (first_loop_total bs Hwf) as [g0 H0]. rewrite H0. cbn [bind].
  apply first_loop_grouped in H0.
  destruct (sort_groups_total bs g0 Hwf H0) as [g1 H1]. rewrite H1. cbn [bind].
  apply sort_groups_Forall2 in H1. pose proof (sort_groups_keys _ _ H1) as Hkeys.
  assert (Hnd : NoDup (keys g1)).
  { rewrite Hkeys. apply keys_distinct_NoDup, (go_distinct _ _ H0). }
  rewrite (pop_known_fold ISSUER_ORDER [] g1 NoDup_ISSUER_ORDER Hnd) by (simpl; tauto).
  rewrite unknown_sort_total.
  - cbn [bind]. eauto.
  - now apply NoDup_keys_filter.
  - pose proof (grouped_of_string_keys bs g0 Hwf H0) as Hstr.
    rewrite Forall_forall in *. intros k Hk. apply Hstr. rewrite <- Hkeys.
    now apply keys_filter_In in Hk.
Qed.

(** Whenever [group_badges] returns, its groups are a rearrangement of
    the input, with distinct keys, each badge under its issuer name. *)
Lemma group_badges_contents (bs : list json) (g : Groups) :
  group_badges (JList bs) = Ok g ->
  Permutation (List.concat (map snd g)) bs /\
  keys_distinct g /\
  forall k l b, In (k, l) g -> In b l ->
    exists name, issuer_name b = Ok name /\ py_eq k name = true.
Proof.
  intros Hg.
  destruct (group_badges_stages bs g Hg) as (g0 & g1 & unknown & H0 & H1 & _ & Hperm & _).
  repeat split.
  - rewrite Hperm. rewrite <- (sort_groups_concat _ _ H1). apply (go_perm _ _ H0).
  - apply (keys_distinct_perm g1); [now symmetry | ].
    unfold keys_distinct. rewrite (sort_groups_keys _ _ H1). apply (go_distinct _ _ H0).
  - intros k l b Hkl Hb.
    destruct (group_badges_group bs g k l Hg Hkl) as [Hs _].
    apply list_sort_perm in Hs.
    apply (Permutation_in _ (Permutation_sym Hs)) in Hb.
    apply filter_In in Hb as [_ Hb]. unfold issuer_is in Hb.
    destruct (issuer_name b) as [name | e]; [ | discriminate]. now exists name.
Qed.

(** C4: [group_badges] returns a collection on all well-formed badges,
    and whenever it returns one, the groups together hold every input
    badge exactly once, no two groups have the same key, and every badge
    is in the group keyed by its issuer name. *)
Theorem group_badges_partition (bs : list json) :
  (Forall well_formed_badge bs -> exists g, group_badges (JList bs) = Ok g) /\
  (forall g, group_badges (JList bs) = Ok g ->
     Permutation (List.concat (map snd g)) bs /\
     keys_distinct g /\
     forall k l b, In (k, l) g -> In b l ->
       exists name, issuer_name b = Ok name /\ py_eq k name = true).
Proof.
  split; [apply group_badges_total | apply group_badges_contents].
Qed.

Lemma sample_badges_well_formed : Forall well_formed_badge sample_badges.
Proof.
  repeat constructor; eexists; reflexivity.
Qed.

Lemma sample_badges_grouped : group_badges (JList sample_badges) = Ok sample_groups.
Proof. reflexivity. Qed.

Lemma group_badges_partition_witness :
  Forall well_formed_badge sample_badges /\
  group_badges (JList sample_badges) = Ok sample_groups /\
  (exists g, group_badges (JList sample_badges) = Ok g) /\
  Permutation (List.concat (map snd sample_groups)) sample_badges /\
  keys_distinct sample_groups /\
  forall k l b, In (k, l) sample_groups -> In b l ->
    exists name, issuer_name b = Ok name /\ py_eq k name = true.
Proof.
  split; [exact sample_badges_well_formed | ].
  split; [exact sample_badges_grouped | ].
  split.
  - exact (proj1 (group_badges_partition sample_badges) sample_badges_well_formed).
  - exact (proj2 (group_badges_partition sample_badges) sample_groups
             sample_badges_grouped).
Defined.




Lemma py_eq_JStr_l (k : json) (s : string) : py_eq (JStr s) k = true <-> k = JStr s.
Proof.
  destruct k; simpl; try (split; [discriminate | congruence]).
  rewrite String.eqb_eq. split; congruence.
Qed.

Lemma grouped_of_has_key (bs : list json) (g0 : Groups) (b : json) (n : string) :
  grouped_of bs g0 -> In b bs -> issuer_is (JStr n) b = true -> In (JStr n) (keys g0).
Proof.
  intros H0 Hb Hn.
  apply (Permutation_in _ (Permutation_sym (go_perm _ _ H0))) in Hb.
  apply in_concat in Hb as (l & Hl & Hbl).
  apply in_map_iff in Hl as ([k l'] & Heq & Hkl). simpl in Heq. subst l'.
  pose proof (go_filter _ _ H0) as Hf. rewrite Forall_forall in Hf.
  destruct (Hf _ Hkl) as [Hfl _]. simpl in Hfl.
  rewrite Hfl in Hbl. apply filter_In in Hbl as [_ Hk].
  unfold issuer_is in Hn, Hk. destruct (issuer_name b) as [m | e]; [ | discriminate].
  apply py_eq_JStr_l in Hn. subst m. apply py_eq_JStr_r in Hk. subst k.
  apply (in_map fst _ (_, l)), Hkl.
Qed.

Lemma has_group_iff (g : Groups) (n : string) :
  has_group g n = true <-> In (JStr n) (keys g).
Proof.
  unfold has_group. split.
  - destruct (groups_lookup (JStr n) g) as [l | ] eqn:Hl; [intros _ | discriminate].
    apply groups_lookup_Some in Hl as (k & Hin & Hk).
    apply py_eq_JStr_r in Hk. subst k. apply (in_map fst _ (_, l)), Hin.
  - intros Hin. destruct (groups_lookup (JStr n) g) as [l | ] eqn:Hl; trivial.
    pose proof (groups_lookup_None _ _ Hl _ Hin) as Hk. simpl in Hk.
    now rewrite String.eqb_refl in Hk.
Qed.

Lemma Sorted_map {A B : Type} (f : A -> B) (R : B -> B -> Prop) (l : list A) :
  Sorted (fun x y => R (f x) (f y)) l -> Sorted R (map f l).
Proof.
  induction 1 as [ | x l Hl IH Hx]; simpl; constructor; trivial.
  destruct Hx; simpl; constructor; trivial.
Qed.

Lemma NoDup_map_filter {A B : Type} (h : A -> B) (f : A -> bool) (l : list A) :
  NoDup (map h l) -> NoDup (map h (filter f l)).
Proof.
  induction l as [ | x l IH]; simpl; trivial.
  intros H. inversion H as [ | ? ? Hnotin Hl]; subst.
  destruct (f x); simpl; auto.
  constructor; auto. intros Hin. apply Hnotin.
  apply in_map_iff in Hin as (y & Hy & Hin). apply filter_In in Hin as [Hin _].
  rewrite <- Hy. now apply in_map.
Qed.

Lemma keys_hashable_filter {V : Type} (f : json * V -> bool) (d : list (json * V)) :
  keys_hashable d -> keys_hashable (filter f d).
Proof.
  unfold keys_hashable. rewrite !Forall_forall. intros H k Hk.
  now apply H, (keys_filter_In f).
Qed.

Lemma keys_distinct_filter {V : Type} (f : json * V -> bool) (d : list (json * V)) :
  keys_distinct d -> keys_distinct (filter f d).
Proof.
  unfold keys_distinct, keys. rewrite !map_map. apply NoDup_map_filter.
Qed.







(* ================================================================== *)
(** ** render_section *)

Lemma badge_html_anchor (rt : Builtins) (b : json) :
  has_render_fields b -> badge_html rt b = Ok (anchor rt b).
Proof.
  intros (badge_id & tmpl & name & image_url & Hid & Ht & Hn & Hu).
  unfold badge_html, anchor, field. rewrite Hid, Ht. simpl. now rewrite Hn, Hu.
Qed.

Lemma render_fold (rt : Builtins) (grouped : Groups) (lines : list string) :
  Forall (fun item => Forall has_render_fields (snd item)) grouped ->
  foldM (render_group rt) grouped lines
  = Ok (lines ++ flat_map (group_lines rt) grouped)%list.
Proof.
  intros H. revert lines. induction H as [ | [issuer badges] grouped Hb _ IH]; intros lines.
  - simpl. now rewrite app_nil_r.
  - cbn [foldM render_group].
    rewrite (mapM_pure _ (anchor rt)).
    + cbn [bind]. rewrite IH. cbn [flat_map]. now rewrite <- app_assoc.
    + eapply Forall_impl; [ | exact Hb]. intros b. apply badge_html_anchor.
Qed.

(** C9 (as amended): when every badge has its identifier and its
    template name and image URL, [render_section] returns the heading, a
    blank line, and for each group in order its bold issuer line, a blank
    line, the line of its badge anchors separated by single spaces, and a
    blank line, all joined by newlines. *)
Theorem render_section_layout (rt : Builtins) (grouped : Groups) :
  Forall (fun item => Forall has_render_fields (snd item)) grouped ->
  render_section rt grouped = Ok (section_layout rt grouped).
Proof.
  intros H. unfold render_section. now rewrite render_fold.
Qed.

Lemma render_section_layout_witness :
  Forall (fun item => Forall has_render_fields (snd item))
    [(JStr "IBM", [ibm_badge "7" "Cloud"])] /\
  render_section demo_builtins [(JStr "IBM", [ibm_badge "7" "Cloud"])]
  = Ok (section_layout demo_builtins [(JStr "IBM", [ibm_badge "7" "Cloud"])]).
Proof.
  assert (H : Forall (fun item => Forall has_render_fields (snd item))
                [(JStr "IBM", [ibm_badge "7" "Cloud"])]).
  { repeat constructor. unfold has_render_fields. simpl. repeat eexists. }
  split; [exact H | ].
  apply (render_section_layout demo_builtins _ H).
Defined.

(** The fragment of one badge has a blank line under the heading,
    whatever the built-ins. *)
Lemma one_badge_section (rt : Builtins) :
  render_section rt [(JStr "IBM", [ibm_badge "7" "Cloud"])]
  = Ok (heading ++ nl ++ nl ++ "**IBM**" ++ nl ++ nl
        ++ anchor rt (ibm_badge "7" "Cloud") ++ nl).
Proof. vm_compute. reflexivity. Qed.

(** C9, counterexample: there is a blank line between the heading and
    the first group. *)
Lemma render_section_blank_line_after_heading :
  render_section demo_builtins [(JStr "IBM", [ibm_badge "7" "Cloud"])]
  = Ok (heading ++ nl ++ nl ++ "**IBM**" ++ nl ++ nl
        ++ anchor demo_builtins (ibm_badge "7" "Cloud") ++ nl) /\
  section_layout_no_blank demo_builtins [(JStr "IBM", [ibm_badge "7" "Cloud"])]
  = heading ++ nl ++ "**IBM**" ++ nl ++ nl
    ++ anchor demo_builtins (ibm_badge "7" "Cloud") ++ nl /\
  render_section demo_builtins [(JStr "IBM", [ibm_badge "7" "Cloud"])]
  <> Ok (section_layout_no_blank demo_builtins [(JStr "IBM", [ibm_badge "7" "Cloud"])]).
Proof.
  split; [ | split].
  - vm_compute. reflexivity.
  - vm_compute. reflexivity.
  - vm_compute. discriminate.
Qed.

(* ================================================================== *)
(** ** main *)

Lemma main_eq (rt : Builtins) (net : Network) (w : World) :
  main rt net w =
  match fetch_badges net with
  | Raise e =>
      if is_Exception e then
        (Raise (SystemExit 0),
         {| readme := readme w;
            stdout := stdout w ++ ["Keeping existing README content."];
            stderr := stderr w ++ ["WARNING: Failed to fetch badges: " ++ str_of_exn rt e];
            reads := reads w; writes := writes w |})
      else (Raise e, w)
  | Ok _ =>
      match rendered_section rt net with
      | Ok section => update_readme section w
      | Raise e => (Raise e, w)
      end
  end.
Proof.
  unfold main, rendered_section.
  destruct (fetch_badges net) as [badges | e]; cbn [bind].
  - unfold io_bind, lift. destruct (group_badges badges) as [g | e]; cbn [bind]; trivial.
  - destruct (is_Exception e); reflexivity.
Qed.

Lemma fetch_badges_Exception (net : Network) (e : exn) :
  fetch_badges net = Raise e -> is_Exception e = true.
Proof.
  destruct net as [ | | | | v]; simpl; try (intros [= <-]; reflexivity).
  destruct v; simpl; try (intros [= <-]; reflexivity).
  destruct (dict_lookup "data" d); intros [= <-]; reflexivity.
Qed.

(** C8: when fetching raises, [main] prints the warning and the notice
    that the content is kept, neither reads nor writes README.md, and
    exits with status 0. *)
Theorem main_fetch_failure (rt : Builtins) (net : Network) (w : World) (e : exn) :
  fetch_badges net = Raise e ->
  main rt net w =
    (Raise (SystemExit 0),
     {| readme := readme w;
        stdout := stdout w ++ ["Keeping existing README content."];
        stderr := stderr w ++ ["WARNING: Failed to fetch badges: " ++ str_of_exn rt e];
        reads := reads w; writes := writes w |}).
Proof.
  intros H. rewrite main_eq, H. now rewrite (fetch_badges_Exception net e H).
Qed.

Lemma main_fetch_failure_witness :
  fetch_badges TimedOut = Raise TimeoutError /\
  main demo_builtins TimedOut ordered_doc =
    (Raise (SystemExit 0),
     {| readme := readme ordered_doc;
        stdout := stdout ordered_doc ++ ["Keeping existing README content."];
        stderr := stderr ordered_doc
                  ++ ["WARNING: Failed to fetch badges: "
                      ++ str_of_exn demo_builtins TimeoutError];
        reads := reads ordered_doc; writes := writes ordered_doc |}).
Proof.
  split; [reflexivity | ].
  exact (main_fetch_failure demo_builtins TimedOut ordered_doc TimeoutError eq_refl).
Defined.

(* ================================================================== *)
(** ** Badges without the fields of the markup *)

Lemma getitem_key_dict (d : list (string * json)) (k : string) :
  Ok_or_KeyError ((JDict d).@k).
Proof.
  unfold Ok_or_KeyError. simpl. destruct (dict_lookup k d); eauto.
Qed.

Lemma getitem_key_is_dict (v : json) (k : string) (r : Result json) :
  v.@k = r -> r <> Raise TypeError -> exists d, v = JDict d.
Proof.
  destruct v; simpl; intros <- H; try contradiction. eauto.
Qed.

(** A badge that [issuer_name] accepts is an object, and so is its
    template when it has one: [badge_html] can only miss a key. *)
Lemma badge_html_after_issuer_name (rt : Builtins) (b name : json) :
  issuer_name b = Ok name -> Ok_or_KeyError (badge_html rt b).
Proof.
  unfold issuer_name, badge_html. intros H.
  destruct b as [ | | | | | d]; try discriminate H.
  simpl in *.
  destruct (dict_lookup "id" d) as [badge_id | ]; [ | now right]. simpl.
  destruct (dict_lookup "badge_template" d) as [tmpl | ]; [ | now right]. simpl in *.
  destruct tmpl as [ | | | | | t]; try discriminate H. simpl.
  destruct (dict_lookup "name" t); [ | now right]. simpl.
  destruct (dict_lookup "image_url" t); [ | now right]. simpl.
  left. eauto.
Qed.

Lemma badge_html_lacking (rt : Builtins) (b : json) :
  lacks_render_field b -> badge_html rt b = Raise KeyError.
Proof.
  unfold badge_html.
  intros [Hid | [Ht | (tmpl & Ht & Hf)]].
  - now rewrite Hid.
  - destruct (getitem_key_is_dict _ _ _ Ht) as [d ->]; [discriminate | ].
    destruct (getitem_key_dict d "id") as [[x ->] | ->]; trivial.
    simpl in *. now rewrite Ht.
  - destruct (getitem_key_is_dict _ _ _ Ht) as [d ->]; [discriminate | ].
    destruct (getitem_key_dict d "id") as [[x ->] | ->]; trivial.
    cbn [bind]. rewrite Ht. cbn [bind].
    destruct Hf as [Hn | Hu]; [now rewrite Hn | ].
    destruct (getitem_key_is_dict _ _ _ Hu) as [t ->]; [discriminate | ].
    destruct (getitem_key_dict t "name") as [[y ->] | ->]; trivial.
    cbn [bind]. now rewrite Hu.
Qed.

Lemma mapM_KeyError {A B : Type} (f : A -> Result B) (l : list A) :
  Forall (fun x => Ok_or_KeyError (f x)) l ->
  Ok_or_KeyError (mapM f l) /\
  ((exists x, In x l /\ f x = Raise KeyError) -> mapM f l = Raise KeyError).
Proof.
  induction 1 as [ | x l Hx _ [IH1 IH2]]; simpl.
  - split; [left; eauto | intros (x & [] & _)].
  - destruct Hx as [[y Hy] | Hy]; rewrite Hy; simpl.
    + destruct IH1 as [[ys Hys] | Hr].
      * rewrite Hys. simpl. split; [left; eauto | ].
        intros (z & [<- | Hz] & Hfz); [congruence | ].
        rewrite IH2 in Hys by eauto. discriminate.
      * rewrite Hr. simpl. split; [now right | trivial].
    + split; [now right | trivial].
Qed.

Lemma render_fold_KeyError (rt : Builtins) (grouped : Groups) (lines : list string) :
  Forall (fun item => Forall (fun b => Ok_or_KeyError (badge_html rt b)) (snd item))
    grouped ->
  (exists item b, In item grouped /\ In b (snd item) /\ badge_html rt b = Raise KeyError) ->
  foldM (render_group rt) grouped lines = Raise KeyError.
Proof.
  intros H. revert lines. induction H as [ | [issuer badges] grouped Hb _ IH]; intros lines.
  - intros (item & b & [] & _).
  - intros (item & b & Hitem & Hbin & Hraise). cbn [foldM render_group].
    destruct (mapM_KeyError (badge_html rt) badges Hb) as [[[htmls Hh] | Hr] Hex].
    + rewrite Hh. cbn [bind]. apply IH.
      destruct Hitem as [<- | Hitem]; [ | now exists item, b].
      simpl in Hbin. rewrite Hex in Hh by eauto. discriminate.
    + now rewrite Hr.
Qed.



(* ================================================================== *)
(** ** Running twice *)

Section SecondRun.
Local Open Scope nat_scope.

Variables (pre mid suf section_content : string).

Hypothesis start_first : first_at START_MARKER (old_doc pre mid suf) (String.length pre).
Hypothesis end_first :
  first_at END_MARKER (old_doc pre mid suf) (String.length (pre ++ START_MARKER ++ mid)).
Hypothesis section_clean : absent END_MARKER section_content.

Lemma str_drop_head (m : nat) (rest : string) :
  m <= String.length pre + String.length START_MARKER ->
  str_drop m (pre ++ START_MARKER ++ rest) = str_drop m (pre ++ START_MARKER) ++ rest.
Proof.
  intros Hm. rewrite <- (append_assoc pre START_MARKER rest).
  apply str_drop_app_le. rewrite length_append. lia.
Qed.

(** Before the end of the start marker both documents are the same. *)
Lemma same_head (sub : string) (m : nat) :
  m + String.length sub <= String.length pre + String.length START_MARKER ->
  starts_with sub (str_drop m (new_doc pre section_content suf)) = starts_with sub (str_drop m (old_doc pre mid suf)).
Proof.
  intros Hm. unfold old_doc, new_doc.
  rewrite !str_drop_head by lia.
  rewrite !starts_with_app_long; trivial;
    rewrite length_str_drop, length_append; lia.
Qed.

Lemma start_first' : first_at START_MARKER (new_doc pre section_content suf) (String.length pre).
Proof.
  destruct start_first as (_ & _ & Hbefore).
  repeat split.
  - unfold new_doc. rewrite length_append. lia.
  - unfold new_doc. rewrite str_drop_app. apply starts_with_app.
  - intros m Hm. rewrite same_head by lia. now apply Hbefore.
Qed.

Lemma end_first' :
  first_at END_MARKER (new_doc pre section_content suf)
    (String.length (pre ++ START_MARKER ++ nl ++ section_content)).
Proof.
  destruct end_first as (_ & _ & Hbefore).
  assert (Hlen : String.length (pre ++ START_MARKER ++ mid)
                 = String.length pre + String.length START_MARKER + String.length mid)
    by (rewrite !length_append; lia).
  repeat split.
  - unfold new_doc. rewrite !length_append. lia.
  - unfold new_doc.
    replace (pre ++ START_MARKER ++ nl ++ section_content ++ END_MARKER ++ suf)
      with ((pre ++ START_MARKER ++ nl ++ section_content) ++ END_MARKER ++ suf)
      by now rewrite !append_assoc.
    rewrite str_drop_app. apply starts_with_app.
  - intros m Hm. rewrite !length_append in Hm.
    change (String.length nl) with 1 in Hm.
    destruct (Nat.le_gt_cases (m + String.length END_MARKER)
                (String.length pre + String.length START_MARKER)) as [Hin | Hout].
    + (* inside the unchanged head *)
      rewrite same_head by trivial. apply Hbefore.
      change (String.length END_MARKER) with 26 in Hin.
      change (String.length START_MARKER) with 28 in *. lia.
    + destruct (Nat.le_gt_cases m (String.length pre + String.length START_MARKER))
        as [Hnl | Hsec].
      * (* across the newline *)
        unfold new_doc. rewrite str_drop_head by trivial.
        destruct (starts_with END_MARKER _) eqn:Hs; trivial. exfalso.
        apply starts_with_app_char in Hs.
        -- now apply END_MARKER_no_newline in Hs.
        -- rewrite length_str_drop, length_append. lia.
      * (* inside the fragment, or across its end *)
        set (j := m - (String.length pre + String.length START_MARKER + 1)).
        assert (Hdrop : str_drop m (new_doc pre section_content suf)
                        = str_drop j section_content ++ END_MARKER ++ suf).
        { unfold new_doc.
          replace (pre ++ START_MARKER ++ nl ++ section_content ++ END_MARKER ++ suf)
            with ((pre ++ START_MARKER ++ nl) ++ section_content ++ END_MARKER ++ suf)
            by now rewrite !append_assoc.
          replace m with (String.length (pre ++ START_MARKER ++ nl) + j).
          - rewrite str_drop_add, str_drop_app. apply str_drop_app_le. unfold j. lia.
          - rewrite !length_append. change (String.length nl) with 1. unfold j. lia. }
        rewrite Hdrop.
        destruct (Nat.le_gt_cases (String.length END_MARKER)
                    (String.length (str_drop j section_content))) as [Hlong | Hshort].
        -- rewrite starts_with_app_long by trivial.
           apply section_clean. unfold j. lia.
        -- destruct (starts_with END_MARKER _) eqn:Hs; trivial. exfalso.
           apply (starts_with_app_char END_MARKER _ "<"%char) in Hs; trivial.
           apply END_MARKER_lt in Hs.
           rewrite length_str_drop in Hs. unfold j in Hs. lia.
Qed.

End SecondRun.

Lemma update_readme_no_change (section_content : string) (w : World) :
  py_find (text_of w) START_MARKER <> -1 ->
  py_find (text_of w) END_MARKER <> -1 ->
  new_content (text_of w) (py_find (text_of w) START_MARKER)
    (py_find (text_of w) END_MARKER) section_content = text_of w ->
  update_readme section_content w = (Ok tt, unchanged w).
Proof.
  intros Hs He Hnew. rewrite update_readme_eq. cbv zeta.
  destruct (Z.eqb_spec (py_find (text_of w) START_MARKER) (-1)); [contradiction | ].
  destruct (Z.eqb_spec (py_find (text_of w) END_MARKER) (-1)); [contradiction | ].
  simpl. rewrite Hnew, String.eqb_refl. reflexivity.
Qed.

(** On a file whose text already holds the fragment between the
    markers, [update_readme] changes nothing. *)
Lemma update_readme_stable (section_content pre suf : string) (w : World) :
  text_of w = pre ++ START_MARKER ++ nl ++ section_content ++ END_MARKER ++ suf ->
  first_at START_MARKER (text_of w) (String.length pre) ->
  first_at END_MARKER (text_of w)
    (String.length (pre ++ START_MARKER ++ nl ++ section_content)) ->
  update_readme section_content w = (Ok tt, unchanged w).
Proof.
  intros Hdoc Hs He.
  apply py_find_first_at in Hs, He.
  apply update_readme_no_change.
  - rewrite Hs. lia.
  - rewrite He. lia.
  - rewrite Hs, He. rewrite Hdoc.
    replace (pre ++ START_MARKER ++ nl ++ section_content ++ END_MARKER ++ suf)
      with (pre ++ START_MARKER ++ (nl ++ section_content) ++ END_MARKER ++ suf)
      by now rewrite !append_assoc.
    rewrite new_content_split. now rewrite !append_assoc.
Qed.

Lemma no_CR_new_doc (pre mid suf section_content : string) :
  no_CR (old_doc pre mid suf) = true -> no_CR section_content = true ->
  no_CR (new_doc pre section_content suf) = true.
Proof.
  unfold old_doc, new_doc. rewrite !no_CR_app, !andb_true_iff.
  intros (Hpre & _ & _ & _ & Hsuf) Hsec. repeat split; trivial.
Qed.

(** After [update_readme] with a fragment free of carriage returns, the
    text of the file is the new document. *)
Lemma update_readme_text_after (section_content pre mid suf : string) (w : World) :
  text_of w = old_doc pre mid suf ->
  first_at START_MARKER (text_of w) (String.length pre) ->
  first_at END_MARKER (text_of w) (String.length (pre ++ START_MARKER ++ mid)) ->
  no_CR section_content = true ->
  text_of (snd (update_readme section_content w)) = new_doc pre section_content suf.
Proof.
  intros Hdoc Hs He Hsec.
  destruct (update_readme_old_doc section_content pre mid suf w Hdoc Hs He)
    as [_ [Hnew | [Hsame Hnew]]].
  - unfold text_of. rewrite Hnew. apply universal_newlines_no_CR.
    apply (no_CR_new_doc pre mid suf); trivial.
    rewrite <- Hdoc. apply no_CR_text_of.
  - unfold text_of. rewrite Hsame. exact Hnew.
Qed.

Lemma update_readme_twice (section_content : string) (w : World) :
  0 <= py_find (text_of w) START_MARKER < py_find (text_of w) END_MARKER ->
  py_find section_content END_MARKER = -1 ->
  no_CR section_content = true ->
  update_readme section_content (snd (update_readme section_content w))
  = (Ok tt, unchanged (snd (update_readme section_content w))).
Proof.
  intros Hord Hclean Hsec. apply py_find_absent in Hclean.
  destruct (ordered_markers_split (text_of w) Hord) as (pre & mid & suf & Hdoc & Hs & He).
  pose proof (update_readme_text_after section_content pre mid suf w Hdoc Hs He Hsec)
    as Hnew.
  set (w1 := snd (update_readme section_content w)) in *.
  rewrite Hdoc in Hs, He.
  apply (update_readme_stable section_content pre suf w1 Hnew); rewrite Hnew.
  - exact (start_first' pre mid suf section_content Hs).
  - exact (end_first' pre mid suf section_content He Hclean).
Qed.

(** C7 (as amended): if the new content equals the text read,
    [update_readme] writes nothing and prints "No changes needed."; and
    when the start marker comes before the end marker and the rendered
    fragment contains neither the end marker nor a carriage return, a
    second run of [main] on the same fetched data writes nothing and
    prints the same. *)
Theorem second_run_writes_nothing :
  (forall section_content w,
     py_find (text_of w) START_MARKER <> -1 ->
     py_find (text_of w) END_MARKER <> -1 ->
     new_content (text_of w) (py_find (text_of w) START_MARKER)
       (py_find (text_of w) END_MARKER) section_content = text_of w ->
     update_readme section_content w = (Ok tt, unchanged w)) /\
  (forall rt net w section_content,
     rendered_section rt net = Ok section_content ->
     0 <= py_find (text_of w) START_MARKER < py_find (text_of w) END_MARKER ->
     py_find section_content END_MARKER = -1 ->
     no_CR section_content = true ->
     main rt net (snd (main rt net w)) = (Ok tt, unchanged (snd (main rt net w)))).
Proof.
  split; [exact update_readme_no_change | ].
  intros rt net w section_content Hsec Hord Hclean Hcr.
  assert (Hmain : forall w0, main rt net w0 = update_readme section_content w0).
  { intros w0. rewrite main_eq, Hsec.
    unfold rendered_section in Hsec.
    destruct (fetch_badges net); [reflexivity | discriminate]. }
  rewrite !Hmain. now apply update_readme_twice.
Qed.

Lemma second_run_writes_nothing_witness :
  rendered_section demo_builtins (one_badge "Cloud")
  = Ok (section_layout demo_builtins [(JStr "IBM", [ibm_badge "7" "Cloud"])]) /\
  0 <= py_find (text_of ordered_doc) START_MARKER
    < py_find (text_of ordered_doc) END_MARKER /\
  py_find (section_layout demo_builtins [(JStr "IBM", [ibm_badge "7" "Cloud"])])
    END_MARKER = -1 /\
  no_CR (section_layout demo_builtins [(JStr "IBM", [ibm_badge "7" "Cloud"])]) = true /\
  main demo_builtins (one_badge "Cloud")
    (snd (main demo_builtins (one_badge "Cloud") ordered_doc))
  = (Ok tt, unchanged (snd (main demo_builtins (one_badge "Cloud") ordered_doc))).
Proof.
  assert (H1 : rendered_section demo_builtins (one_badge "Cloud")
               = Ok (section_layout demo_builtins [(JStr "IBM", [ibm_badge "7" "Cloud"])]))
    by reflexivity.
  assert (H2 : 0 <= py_find (text_of ordered_doc) START_MARKER
                 < py_find (text_of ordered_doc) END_MARKER)
    by (vm_compute; split; [discriminate | reflexivity]).
  assert (H3 : py_find (section_layout demo_builtins
                          [(JStr "IBM", [ibm_badge "7" "Cloud"])]) END_MARKER = -1)
    by reflexivity.
  assert (H4 : no_CR (section_layout demo_builtins
                        [(JStr "IBM", [ibm_badge "7" "Cloud"])]) = true)
    by reflexivity.
  split; [exact H1 | ]. split; [exact H2 | ]. split; [exact H3 | ]. split; [exact H4 | ].
  exact (proj2 second_run_writes_nothing demo_builtins (one_badge "Cloud") ordered_doc
           _ H1 H2 H3 H4).
Defined.

(** With a badge whose name contains the end marker, the second run
    writes again, whatever the built-ins. *)
Lemma marker_in_name_second_write (rt : Builtins) :
  List.length (writes (snd (main rt marker_in_name
                              (snd (main rt marker_in_name ordered_doc))))) = 2%nat.
Proof. vm_compute. reflexivity. Qed.

(** With a badge whose name contains a carriage return, the second run
    reads a newline where it wrote the carriage return, and writes the
    same content again, whatever the built-ins. *)
Lemma cr_in_name_second_write (rt : Builtins) :
  writes (snd (main rt cr_in_name (snd (main rt cr_in_name ordered_doc))))
  = [readme (snd (main rt cr_in_name ordered_doc));
     readme (snd (main rt cr_in_name ordered_doc))].
Proof. vm_compute. reflexivity. Qed.

(** C7, counterexample: a badge whose name contains the end marker, and
    a badge whose name contains a carriage return.  In both cases the
    second run on the same fetched data writes README.md again. *)
Lemma second_run_writes_again :
  (fst (main demo_builtins marker_in_name ordered_doc) = Ok tt /\
   fst (main demo_builtins marker_in_name
          (snd (main demo_builtins marker_in_name ordered_doc))) = Ok tt /\
   List.length (writes (snd (main demo_builtins marker_in_name ordered_doc))) = 1%nat /\
   List.length (writes (snd (main demo_builtins marker_in_name
                               (snd (main demo_builtins marker_in_name ordered_doc)))))
   = 2%nat /\
   readme (snd (main demo_builtins marker_in_name
                  (snd (main demo_builtins marker_in_name ordered_doc))))
   <> readme (snd (main demo_builtins marker_in_name ordered_doc))) /\
  (fst (main demo_builtins cr_in_name ordered_doc) = Ok tt /\
   fst (main demo_builtins cr_in_name
          (snd (main demo_builtins cr_in_name ordered_doc))) = Ok tt /\
   List.length (writes (snd (main demo_builtins cr_in_name ordered_doc))) = 1%nat /\
   List.length (writes (snd (main demo_builtins cr_in_name
                               (snd (main demo_builtins cr_in_name ordered_doc)))))
   = 2%nat).
Proof.
  split.
  - vm_compute. repeat split. discriminate.
  - vm_compute. repeat split.
Qed.

(* ================================================================== *)
(** * Further properties *)

(* ================================================================== *)
(** ** What group_badges raises *)

Lemma issuer_name_raises (b : json) (e : exn) :
  issuer_name b = Raise e -> e = TypeError.
Proof.
  rewrite issuer_name_follow.
  destruct (supported_along issuer_path b) eqn:Hs.
  - destruct (follow issuer_path b) as [v | e'] eqn:Hf; [discriminate | ].
    unfold try_except. rewrite (follow_supported _ _ _ Hs Hf). discriminate.
  - rewrite (follow_unsupported _ _ Hs). unfold try_except. simpl. now intros [= <-].
Qed.

Lemma issuer_name_object (b n : json) : issuer_name b = Ok n -> is_object b.
Proof.
  destruct b; try discriminate. intros _. now eexists.
Qed.

Lemma py_lt_raises : forall (a b : json) (e : exn), py_lt a b = Raise e -> e = TypeError.
Proof.
  fix IH 1. intros a b e.
  destruct a as [ | x | m | s | la | da], b as [ | y | n | t | lb | db]; simpl;
    try (intros [= <-]; reflexivity); try discriminate.
  revert lb. induction la as [ | x la IHla]; intros [ | y lb]; try discriminate.
  destruct (py_eq x y); [apply IHla | apply IH].
Qed.

Lemma foldM_raises {A S : Type} (f : S -> A -> Result S) (P : exn -> Prop)
    (l : list A) (s : S) (e : exn) :
  (forall s x e, In x l -> f s x = Raise e -> P e) ->
  foldM f l s = Raise e -> P e.
Proof.
  revert s; induction l as [ | x l IH]; intros s H; simpl; [discriminate | ].
  destruct (f s x) as [s' | e'] eqn:Hf; simpl.
  - apply IH. intros s0 y e0 Hy. apply H. simpl. auto.
  - intros [= <-]. apply (H s x); simpl; auto.
Qed.

Lemma mapM_raises {A B : Type} (f : A -> Result B) (P : exn -> Prop)
    (l : list A) (e : exn) :
  (forall x e, In x l -> f x = Raise e -> P e) ->
  mapM f l = Raise e -> P e.
Proof.
  induction l as [ | x l IH]; intros H; simpl; [discriminate | ].
  destruct (f x) as [y | e'] eqn:Hf; simpl.
  - destruct (mapM f l) as [ys | e'] eqn:Hm; simpl; [discriminate | ].
    intros [= <-]. apply IH; trivial. intros y0 e0 Hy. apply H. simpl. auto.
  - intros [= <-]. apply (H x); simpl; auto.
Qed.

Lemma insert_by_raises {A : Type} (lt : A -> A -> Result bool) (P : exn -> Prop)
    (x : A) (l : list A) (e : exn) :
  (forall a b e, lt a b = Raise e -> P e) ->
  insert_by lt x l = Raise e -> P e.
Proof.
  intros H. induction l as [ | y l IH]; simpl; [discriminate | ].
  destruct (lt x y) as [[ | ] | e'] eqn:Hlt; simpl.
  - discriminate.
  - destruct (insert_by lt x l); simpl; [discriminate | ].
    intros [= <-]. now apply IH.
  - intros [= <-]. exact (H _ _ _ Hlt).
Qed.

Lemma py_sort_raises {A : Type} (lt : A -> A -> Result bool) (P : exn -> Prop)
    (l : list A) (e : exn) :
  (forall a b e, lt a b = Raise e -> P e) ->
  py_sort lt l = Raise e -> P e.
Proof.
  intros H Hs. unfold py_sort in Hs.
  apply (foldM_raises _ P _ _ _) in Hs; trivial.
  intros acc x e0 _. now apply insert_by_raises.
Qed.

Lemma item_lt_raises (p q : json * list json) (e : exn) :
  item_lt p q = Raise e -> e = TypeError.
Proof.
  unfold item_lt. destruct (py_eq (fst p) (fst q)); apply py_lt_raises.
Qed.

(** Sorting a list of objects by date can only fail on the comparison
    of two dates. *)
Lemma list_sort_objects_raises (l : list json) (e : exn) :
  Forall is_object l ->
  list_sort issued_at_key true l = Raise e -> e = TypeError.
Proof.
  intros Hobj. unfold list_sort.
  destruct (mapM _ l) as [keyed | e'] eqn:Hk; simpl.
  - destruct (py_sort _ _) as [sorted | e''] eqn:Hs; simpl; [discriminate | ].
    intros [= <-]. apply (py_sort_raises _ (fun e => e = TypeError) _ _) in Hs; trivial.
    intros a b e0. apply py_lt_raises.
  - intros [= <-]. exfalso.
    apply (mapM_raises _ (fun _ => False) _ _) in Hk; trivial.
    intros x e0 Hx. rewrite Forall_forall in Hobj. destruct (Hobj x Hx) as [d ->].
    unfold issued_at_key. simpl. destruct (dict_lookup _ d); discriminate.
Qed.

Lemma group_step_raises (groups : Groups) (b : json) (e : exn) :
  group_step groups b = Raise e -> e = TypeError.
Proof.
  unfold group_step. destruct (issuer_name b) as [n | e'] eqn:Hn; simpl.
  - destruct (hashable n); [discriminate | now intros [= <-]].
  - intros [= <-]. exact (issuer_name_raises b e' Hn).
Qed.

Lemma grouped_of_objects (bs : list json) (g0 : Groups) :
  grouped_of bs g0 -> Forall is_object bs.
Proof.
  intros H0. pose proof (go_named _ _ H0) as Hn.
  eapply Forall_impl; [ | exact Hn]. intros b (n & Hb & _).
  exact (issuer_name_object b n Hb).
Qed.

Lemma sort_groups_raises (bs : list json) (g0 : Groups) (e : exn) :
  grouped_of bs g0 -> sort_groups g0 = Raise e -> e = TypeError.
Proof.
  intros H0 Hs. unfold sort_groups in Hs.
  apply (mapM_raises _ (fun e => e = TypeError) _ _) in Hs; trivial.
  intros [k l] e0 Hin. simpl.
  destruct (list_sort issued_at_key true l) as [r | e'] eqn:Hl0; simpl; [discriminate | ].
  intros [= <-]. apply (list_sort_objects_raises l); trivial.
  pose proof (go_filter _ _ H0) as Hf. pose proof (grouped_of_objects _ _ H0) as Hobj.
  rewrite Forall_forall in *. destruct (Hf _ Hin) as [Hl _]. simpl in Hl.
  intros b Hb. rewrite Hl in Hb. apply filter_In in Hb as [Hb _]. auto.
Qed.

Lemma group_badges_list_raises (bs : list json) (e : exn) :
  group_badges (JList bs) = Raise e -> e = TypeError.
Proof.
  unfold group_badges. cbn [py_iter bind].
  destruct (foldM group_step bs []) as [g0 | e0] eqn:H0; cbn [bind].
  - apply first_loop_grouped in H0.
    destruct (sort_groups g0) as [g1 | e1] eqn:H1; cbn [bind].
    + destruct (fold_left pop_known_step ISSUER_ORDER ([], g1)) as [known rest].
      destruct (py_sort item_lt rest) as [sorted | e2] eqn:H2; cbn [bind]; [discriminate | ].
      intros [= <-]. apply (py_sort_raises _ (fun e => e = TypeError) _ _) in H2; trivial.
      intros a b e0. apply item_lt_raises.
    + intros [= <-]. exact (sort_groups_raises bs g0 e1 H0 H1).
  - intros [= <-]. apply (foldM_raises _ (fun e => e = TypeError) _ _ _) in H0; trivial.
    intros s x e1 _. apply group_step_raises.
Qed.

(** [group_badges] iterates over its argument first; from there on it
    works on the list of the items. *)
Lemma group_badges_iter (badges : json) :
  group_badges badges =
  match py_iter badges with
  | Ok bs => group_badges (JList bs)
  | Raise e => Raise e
  end.
Proof.
  unfold group_badges. destruct (py_iter badges); reflexivity.
Qed.

Lemma group_badges_raises (badges : json) (e : exn) :
  group_badges badges = Raise e -> e = TypeError.
Proof.
  rewrite group_badges_iter.
  destruct (py_iter badges) as [bs | e'] eqn:Hi.
  - apply group_badges_list_raises.
  - intros [= <-]. destruct badges; simpl in Hi; congruence.
Qed.

(** X2: whatever JSON value it is given, [group_badges] raises nothing
    but TypeError: no KeyError or IndexError of the issuer lookup, of the
    date lookup or of the dictionary operations escapes it. *)
Theorem group_badges_raises_TypeError (badges : json) (e : exn) :
  group_badges badges = Raise e -> e = TypeError.
Proof.
  exact (group_badges_raises badges e).
Qed.

Lemma group_badges_raises_TypeError_witness :
  group_badges (JDict [("a", JNull)]) = Raise TypeError /\ TypeError = TypeError.
Proof.
  assert (H : group_badges (JDict [("a", JNull)]) = Raise TypeError) by reflexivity.
  split; [exact H | ].
  exact (group_badges_raises_TypeError (JDict [("a", JNull)]) TypeError H).
Defined.

(** X3: one record of the list that is not a JSON object is enough for
    [group_badges] to raise TypeError, wherever it stands in the list
    and whatever the other records are. *)
Theorem group_badges_rejects_non_object (bs : list json) (b : json) :
  In b bs -> ~ is_object b -> group_badges (JList bs) = Raise TypeError.
Proof.
  intros Hb Hno.
  destruct (group_badges (JList bs)) as [g | e] eqn:Hg.
  - exfalso. apply Hno.
    destruct (group_badges_contents bs g Hg) as (Hperm & _ & Hnamed).
    apply (Permutation_in _ (Permutation_sym Hperm)) in Hb.
    apply in_concat in Hb as (l & Hl & Hbl).
    apply in_map_iff in Hl as ([k l'] & Heq & Hkl). simpl in Heq. subst l'.
    destruct (Hnamed k l b Hkl Hbl) as (n & Hn & _).
    exact (issuer_name_object b n Hn).
  - f_equal. exact (group_badges_list_raises bs e Hg).
Qed.

Lemma group_badges_rejects_non_object_witness :
  In JNull mixed_badges /\ ~ is_object JNull /\
  group_badges (JList mixed_badges) = Raise TypeError.
Proof.
  assert (H1 : In JNull mixed_badges) by (simpl; auto).
  assert (H2 : ~ is_object JNull) by (intros [d Hd]; discriminate Hd).
  split; [exact H1 | ]. split; [exact H2 | ].
  exact (group_badges_rejects_non_object mixed_badges JNull H1 H2).
Defined.

(* ================================================================== *)
(** ** Looking a badge up in the result *)

Lemma py_eq_hashable (k n : json) :
  hashable k = true -> py_eq k n = true -> hashable n = true.
Proof.
  destruct k, n; simpl; trivial; discriminate.
Qed.

Lemma groups_lookup_found {V : Type} (d : list (json * V)) (k n : json) (v : V) :
  keys_hashable d -> keys_distinct d ->
  In (k, v) d -> py_eq k n = true -> groups_lookup n d = Some v.
Proof.
  unfold keys_hashable, keys_distinct, keys.
  induction d as [ | [k' v'] d IH]; simpl; [tauto | ].
  intros Hh Hd Hin Hkn.
  inversion Hh as [ | ? ? Hk' Hh']; subst. inversion Hd as [ | ? ? Hnotin Hd']; subst.
  destruct Hin as [[= -> ->] | Hin].
  - now rewrite Hkn.
  - destruct (py_eq k' n) eqn:Hk'n; [ | now apply IH].
    exfalso. apply Hnotin.
    assert (Hkh : hashable k = true).
    { rewrite Forall_forall in Hh'. apply Hh'. apply (in_map fst _ (k, v)), Hin. }
    assert (Hnh : hashable n = true) by exact (py_eq_hashable k n Hkh Hkn).
    apply py_eq_norm in Hkn, Hk'n; trivial.
    rewrite Hk'n, <- Hkn. apply in_map, (in_map fst _ (k, v)), Hin.
Qed.

Lemma group_badges_keys_hashable (bs : list json) (g : Groups) :
  group_badges (JList bs) = Ok g -> keys_hashable g.
Proof.
  intros Hg.
  destruct (group_badges_stages bs g Hg) as (g0 & g1 & unknown & H0 & H1 & _ & Hperm & _).
  apply (keys_hashable_perm g1); [now symmetry | ].
  unfold keys_hashable. rewrite (sort_groups_keys _ _ H1). apply (go_hashable _ _ H0).
Qed.

(** X4: the result can be read back as a dictionary.  Looking up the
    issuer name of any input badge, as [issuer_name] gives it, finds the
    group that holds this badge. *)
Theorem group_badges_lookup (bs : list json) (g : Groups) (b n : json) :
  group_badges (JList bs) = Ok g ->
  In b bs -> issuer_name b = Ok n ->
  exists l, groups_lookup n g = Some l /\ In b l.
Proof.
  intros Hg Hb Hn.
  destruct (group_badges_contents bs g Hg) as (Hperm & Hd & Hnamed).
  apply (Permutation_in _ (Permutation_sym Hperm)) in Hb.
  apply in_concat in Hb as (l & Hl & Hbl).
  apply in_map_iff in Hl as ([k l'] & Heq & Hkl). simpl in Heq. subst l'.
  destruct (Hnamed k l b Hkl Hbl) as (n' & Hn' & Hk).
  assert (n' = n) by congruence. subst n'.
  exists l. split; trivial.
  apply (groups_lookup_found g k n l); trivial.
  exact (group_badges_keys_hashable bs g Hg).
Qed.

Lemma group_badges_lookup_witness :
  group_badges (JList sample_badges) = Ok sample_groups /\
  In (sample_badge "1" "2020-03-01" "Cloud" "IBM") sample_badges /\
  issuer_name (sample_badge "1" "2020-03-01" "Cloud" "IBM") = Ok (JStr "IBM") /\
  exists l, groups_lookup (JStr "IBM") sample_groups = Some l /\
            In (sample_badge "1" "2020-03-01" "Cloud" "IBM") l.
Proof.
  assert (H1 : In (sample_badge "1" "2020-03-01" "Cloud" "IBM") sample_badges)
    by (left; reflexivity).
  assert (H2 : issuer_name (sample_badge "1" "2020-03-01" "Cloud" "IBM") = Ok (JStr "IBM"))
    by reflexivity.
  split; [exact sample_badges_grouped | ]. split; [exact H1 | ]. split; [exact H2 | ].
  exact (group_badges_lookup sample_badges sample_groups _ _ sample_badges_grouped H1 H2).
Defined.

(* ================================================================== *)
(** ** Rendering what group_badges returns *)

Lemma render_fields_dichotomy (b n : json) :
  issuer_name b = Ok n -> has_render_fields b \/ lacks_render_field b.
Proof.
  unfold issuer_name, has_render_fields, lacks_render_field. intros H.
  destruct b as [ | | | | | d]; try discriminate H. simpl in *.
  destruct (dict_lookup "id" d) as [badge_id | ]; [ | right; now left].
  destruct (dict_lookup "badge_template" d) as [tmpl | ]; [ | right; right; now left].
  simpl in H. destruct tmpl as [ | | | | | t]; try discriminate H. simpl.
  destruct (dict_lookup "name" t) as [name | ] eqn:Hname.
  - destruct (dict_lookup "image_url" t) as [url | ] eqn:Hurl.
    + left. exists badge_id, (JDict t), name, url. simpl. rewrite Hname, Hurl. auto.
    + right. right. right. exists (JDict t). simpl. rewrite Hurl. auto.
  - right. right. right. exists (JDict t). simpl. rewrite Hname. auto.
Qed.

Lemma Forall_or_Exists {A : Type} (P Q : A -> Prop) (l : list A) :
  Forall (fun x => P x \/ Q x) l -> Forall P l \/ Exists Q l.
Proof.
  induction 1 as [ | x l [Hp | Hq] _ [IH | IH]]; auto.
Qed.

Lemma group_badges_named (bs : list json) (g : Groups) :
  group_badges (JList bs) = Ok g ->
  Forall (fun b => exists n, issuer_name b = Ok n) bs.
Proof.
  intros Hg. destruct (group_badges_contents bs g Hg) as (Hperm & _ & Hnamed).
  rewrite Forall_forall. intros b Hb.
  apply (Permutation_in _ (Permutation_sym Hperm)) in Hb.
  apply in_concat in Hb as (l & Hl & Hbl).
  apply in_map_iff in Hl as ([k l'] & Heq & Hkl). simpl in Heq. subst l'.
  destruct (Hnamed k l b Hkl Hbl) as (n & Hn & _). eauto.
Qed.

Lemma group_badges_members (bs : list json) (g : Groups) (P : json -> Prop) :
  group_badges (JList bs) = Ok g ->
  Forall P bs -> Forall (fun item => Forall P (snd item)) g.
Proof.
  intros Hg HP. destruct (group_badges_contents bs g Hg) as (Hperm & _ & _).
  rewrite Forall_forall in *. intros [k l] Hkl. rewrite Forall_forall. intros b Hb.
  apply HP. apply (Permutation_in _ Hperm). apply in_concat.
  exists l. split; trivial. apply (in_map snd _ (k, l)), Hkl.
Qed.

Lemma render_grouped (rt : Builtins) (bs : list json) (g : Groups) :
  group_badges (JList bs) = Ok g ->
  (Forall has_render_fields bs /\ render_section rt g = Ok (section_layout rt g))
  \/ (Exists lacks_render_field bs /\ render_section rt g = Raise KeyError).
Proof.
  intros Hg. pose proof (group_badges_named bs g Hg) as Hnamed.
  destruct (Forall_or_Exists has_render_fields lacks_render_field bs) as [Hall | Hex].
  - eapply Forall_impl; [ | exact Hnamed]. intros b [n Hn].
    exact (render_fields_dichotomy b n Hn).
  - left. split; trivial. unfold render_section.
    rewrite render_fold; [reflexivity | ].
    exact (group_badges_members bs g has_render_fields Hg Hall).
  - right. split; trivial. unfold render_section.
    rewrite render_fold_KeyError; trivial.
    + apply (group_badges_members bs g (fun b => Ok_or_KeyError (badge_html rt b)) Hg).
      eapply Forall_impl; [ | exact Hnamed]. intros b [n Hn].
      exact (badge_html_after_issuer_name rt b n Hn).
    + apply Exists_exists in Hex as (b & Hb & Hlack).
      destruct (group_badges_contents bs g Hg) as (Hperm & _ & _).
      apply (Permutation_in _ (Permutation_sym Hperm)) in Hb.
      apply in_concat in Hb as (l & Hl & Hbl).
      apply in_map_iff in Hl as (item & <- & Hitem).
      exists item, b. repeat split; trivial. now apply badge_html_lacking.
Qed.

(** X5: rendering a collection that [group_badges] returned has two
    outcomes only.  Either every input badge has the four fields of the
    markup and the fragment is returned, or some input badge lacks one
    and KeyError is raised: grouping has already excluded every other
    failure of the rendering. *)
Theorem render_after_grouping (rt : Builtins) (bs : list json) (g : Groups) :
  group_badges (JList bs) = Ok g ->
  (Forall has_render_fields bs /\ render_section rt g = Ok (section_layout rt g))
  \/ (Exists lacks_render_field bs /\ render_section rt g = Raise KeyError).
Proof.
  exact (render_grouped rt bs g).
Qed.

Lemma render_after_grouping_witness :
  group_badges (JList sample_badges) = Ok sample_groups /\
  ((Forall has_render_fields sample_badges /\
    render_section demo_builtins sample_groups
    = Ok (section_layout demo_builtins sample_groups))
   \/ (Exists lacks_render_field sample_badges /\
       render_section demo_builtins sample_groups = Raise KeyError)).
Proof.
  split; [exact sample_badges_grouped | ].
  exact (render_after_grouping demo_builtins sample_badges sample_groups
           sample_badges_grouped).
Defined.

(* ================================================================== *)
(** ** The first and the last line of the fragment *)

Lemma concat_snoc (sep x : string) (l : list string) :
  l <> [] -> String.concat sep (l ++ [x]) = String.concat sep l ++ sep ++ x.
Proof.
  induction l as [ | a l IH]; [contradiction | ]. intros _.
  destruct l as [ | b l]; [reflexivity | ].
  change (String.concat sep ((a :: b :: l) ++ [x]))
    with (a ++ sep ++ String.concat sep ((b :: l) ++ [x])).
  rewrite IH by discriminate.
  change (String.concat sep (a :: b :: l)) with (a ++ sep ++ String.concat sep (b :: l)).
  now rewrite !append_assoc.
Qed.

(** The loop of [render_section] only appends lines, the last of which
    is blank. *)
Lemma render_fold_appends (rt : Builtins) (grouped : Groups) (lines lines' : list string) :
  foldM (render_group rt) grouped lines = Ok lines' ->
  exists more, lines' = (lines ++ more)%list /\
               (more = [] \/ exists m, more = (m ++ [""])%list).
Proof.
  revert lines; induction grouped as [ | [issuer badges] grouped IH]; intros lines.
  - simpl. intros [= <-]. exists []. rewrite app_nil_r. auto.
  - cbn [foldM render_group].
    destruct (mapM (badge_html rt) badges) as [htmls | e]; cbn [bind]; [ | discriminate].
    intros H. apply IH in H as (more & -> & Hmore).
    eexists. rewrite <- app_assoc. split; [reflexivity | ]. right.
    destruct Hmore as [-> | [m ->]].
    + rewrite app_nil_r.
      now exists [("**" ++ fmt rt issuer ++ "**")%string; ""; String.concat " " htmls].
    + eexists. rewrite app_assoc. reflexivity.
Qed.

(** X6: whenever [render_section] returns, whatever the collection and
    the fields of its badges, the fragment begins with the heading line
    and ends with a newline, so that the end marker that follows it in
    README.md starts a line. *)
Theorem render_section_ends (rt : Builtins) (grouped : Groups) (section : string) :
  render_section rt grouped = Ok section ->
  (exists rest, section = heading ++ nl ++ rest) /\
  (exists body, section = body ++ nl).
Proof.
  unfold render_section.
  destruct (foldM _ grouped _) as [lines | e] eqn:Hf; cbn [bind]; [ | discriminate].
  intros [= <-]. apply render_fold_appends in Hf as (more & -> & Hmore). split.
  - exists (String.concat nl ("" :: more)). reflexivity.
  - destruct Hmore as [-> | [m ->]].
    + exists heading. reflexivity.
    + exists (String.concat nl (["### Certificates & Badges"; ""] ++ m)).
      rewrite app_assoc, concat_snoc by discriminate. reflexivity.
Qed.

Lemma render_section_ends_witness :
  render_section demo_builtins sample_groups
  = Ok (section_layout demo_builtins sample_groups) /\
  (exists rest, section_layout demo_builtins sample_groups = heading ++ nl ++ rest) /\
  (exists body, section_layout demo_builtins sample_groups = body ++ nl).
Proof.
  assert (H : render_section demo_builtins sample_groups
              = Ok (section_layout demo_builtins sample_groups)) by reflexivity.
  split; [exact H | ].
  exact (render_section_ends demo_builtins sample_groups _ H).
Defined.

(* ================================================================== *)
(** ** What main reports *)

Lemma render_after_group_badges (rt : Builtins) (badges : json) (g : Groups) (e : exn) :
  group_badges badges = Ok g -> render_section rt g = Raise e -> e = KeyError.
Proof.
  rewrite group_badges_iter.
  destruct (py_iter badges) as [bs | e']; [ | discriminate]. intros Hg Hr.
  destruct (render_grouped rt bs g Hg) as [[_ Hok] | [_ Hraise]]; congruence.
Qed.

Lemma rendered_section_raises (rt : Builtins) (net : Network) (e : exn) :
  (exists badges, fetch_badges net = Ok badges) ->
  rendered_section rt net = Raise e -> e = TypeError \/ e = KeyError.
Proof.
  intros [badges Hfetch]. unfold rendered_section. rewrite Hfetch. cbn [bind].
  destruct (group_badges badges) as [g | e'] eqn:Hg; cbn [bind].
  - intros Hr. right. exact (render_after_group_badges rt badges g e Hg Hr).
  - intros [= <-]. left. exact (group_badges_raises badges e' Hg).
Qed.

(** X9: what a run of [main] reports.  A normal return reads README.md
    once, prints one line on standard output and nothing on standard
    error; an exit prints one message on standard error; a crash with
    TypeError or KeyError happens before README.md is read and before
    anything is printed. *)
Theorem main_reports (rt : Builtins) (net : Network) (w : World) :
  (fst (main rt net w) = Ok tt
   /\ reads (snd (main rt net w)) = S (reads w)
   /\ stderr (snd (main rt net w)) = stderr w
   /\ exists line, stdout (snd (main rt net w)) = (stdout w ++ [line])%list)
  \/ (exists code msg,
        fst (main rt net w) = Raise (SystemExit code)
        /\ stderr (snd (main rt net w)) = (stderr w ++ [msg])%list)
  \/ (exists e,
        fst (main rt net w) = Raise e
        /\ (e = TypeError \/ e = KeyError)
        /\ snd (main rt net w) = w).
Proof.
  rewrite main_eq.
  destruct (fetch_badges net) as [badges | e] eqn:Hfetch.
  - destruct (rendered_section rt net) as [section | e] eqn:Hr.
    + rewrite update_readme_eq. cbv zeta.
      destruct ((py_find (text_of w) START_MARKER =? -1)
                || (py_find (text_of w) END_MARKER =? -1)).
      * right. left. do 2 eexists. split; reflexivity.
      * left. destruct (String.eqb _ (text_of w)); simpl; repeat split; eauto.
    + right. right. exists e. repeat split.
      apply (rendered_section_raises rt net e); eauto.
  - rewrite (fetch_badges_Exception net e Hfetch).
    right. left. do 2 eexists. split; reflexivity.
Qed.

(* ================================================================== *)
(** ** Splicing, once and again *)



(* ================================================================== *)
(** ** The markers in the wrong order *)

Section ReversedMarkers.
Local Open Scope nat_scope.




End ReversedMarkers.




(* ================================================================== *)
(** ** The same badges in another order *)

Lemma key_lt_trans_strings (a b c : json) :
  is_string a -> is_string b -> is_string c ->
  key_lt a b -> key_lt b c -> key_lt a c.
Proof.
  intros [s ->] [t ->] [u ->]. rewrite !key_lt_JStr. apply string_ltb_trans.
Qed.

Lemma key_lt_irrefl_strings (a : json) : is_string a -> ~ key_lt a a.
Proof.
  intros [s ->]. rewrite key_lt_JStr, string_ltb_irrefl. discriminate.
Qed.

Lemma Sorted_strings_strongly (l : list json) :
  Forall is_string l -> Sorted key_lt l -> StronglySorted key_lt l.
Proof.
  intros Hstr Hs. induction Hs as [ | a l Hl IH Ha]; [constructor | ].
  inversion Hstr as [ | ? ? Hsa Hsl]; subst.
  specialize (IH Hsl). constructor; trivial.
  destruct Ha as [ | b l' Hab]; [constructor | ].
  apply StronglySorted_inv in IH as [_ Hb].
  inversion Hsl as [ | ? ? Hsb Hsl']; subst.
  constructor; trivial.
  rewrite Forall_forall in *. intros c Hc.
  apply (key_lt_trans_strings a b c); auto.
Qed.

(** Two ascending lists of strings with the same members are equal. *)
Lemma sorted_strings_unique (l l' : list json) :
  Forall is_string l -> Forall is_string l' ->
  Sorted key_lt l -> Sorted key_lt l' ->
  (forall k, In k l <-> In k l') -> l = l'.
Proof.
  intros Hstr Hstr' Hs Hs'.
  apply Sorted_strings_strongly in Hs; trivial.
  apply Sorted_strings_strongly in Hs'; trivial.
  revert l' Hstr' Hs'. induction Hs as [ | a l Hl IH Ha]; intros l' Hstr' Hs' Hmem.
  - destruct l' as [ | a' l']; trivial.
    exfalso. apply (Hmem a'). simpl. auto.
  - destruct Hs' as [ | a' l' Hl' Ha'].
    + exfalso. apply (Hmem a). simpl. auto.
    + inversion Hstr as [ | ? ? Hsa Hsl]; subst.
      inversion Hstr' as [ | ? ? Hsa' Hsl']; subst.
      rewrite Forall_forall in Ha, Ha'.
      assert (Heq : a = a').
      { destruct (proj1 (Hmem a) (or_introl eq_refl)) as [-> | Hin]; trivial.
        destruct (proj2 (Hmem a') (or_introl eq_refl)) as [-> | Hin']; trivial.
        exfalso. apply (key_lt_irrefl_strings a Hsa).
        apply (key_lt_trans_strings a a' a); auto. }
      subst a'. f_equal. apply IH; trivial.
      intros k. split; intros Hk.
      * destruct (proj1 (Hmem k) (or_intror Hk)) as [<- | Hin]; trivial.
        exfalso. apply (key_lt_irrefl_strings a Hsa). now apply Ha.
      * destruct (proj2 (Hmem k) (or_intror Hk)) as [<- | Hin]; trivial.
        exfalso. apply (key_lt_irrefl_strings a Hsa). now apply Ha'.
Qed.

(** The keys of the result: the priority issuers that have badges, then
    the other keys, ascending. *)
Lemma group_badges_keys_split (bs : list json) (g : Groups) :
  group_badges (JList bs) = Ok g ->
  exists others,
    keys g = (map JStr (filter (has_badges bs) ISSUER_ORDER) ++ others)%list /\
    Forall (fun k => named ISSUER_ORDER k = false) others /\
    Sorted key_lt others.
Proof.
  intros Hg.
  destruct (group_badges_stages bs g Hg)
    as (g0 & g1 & unknown & H0 & H1 & H2 & Hperm & ->).
  pose proof (sort_groups_keys _ _ H1) as Hkeys.
  exists (keys unknown). repeat split.
  - rewrite keys_app, keys_picks. do 2 f_equal.
    apply filter_ext. intros n. unfold has_badges.
    apply eq_true_iff_eq. rewrite has_group_iff, Hkeys, existsb_exists. split.
    + intros Hk. apply (grouped_of_key bs g0 _ H0 Hk).
    + intros (b & Hb & Hn). now apply (grouped_of_has_key bs g0 b).
  - pose proof (py_sort_perm _ _ _ H2) as Hp.
    rewrite Forall_forall. intros k Hk.
    apply in_map_iff in Hk as ([k' l] & Heq & Hin). simpl in Heq. subst k'.
    apply (Permutation_in _ (Permutation_sym Hp)) in Hin.
    apply filter_In in Hin as [_ Hun]. unfold unnamed in Hun. simpl in Hun.
    now apply negb_true_iff in Hun.
  - apply Sorted_map.
    apply (py_sort_items_sorted (filter (unnamed ISSUER_ORDER) g1) unknown); trivial.
    + apply keys_hashable_filter. unfold keys_hashable. rewrite Hkeys.
      apply (go_hashable _ _ H0).
    + apply keys_distinct_filter. unfold keys_distinct. rewrite Hkeys.
      apply (go_distinct _ _ H0).
Qed.

(** The keys of the result are the issuer names of the badges. *)
Lemma group_badges_key_iff (bs : list json) (g : Groups) (k : json) :
  Forall well_formed_badge bs -> group_badges (JList bs) = Ok g ->
  In k (keys g) <-> exists b, In b bs /\ issuer_name b = Ok k.
Proof.
  intros Hwf Hg. rewrite Forall_forall in Hwf. split.
  - intros Hk. apply in_map_iff in Hk as ([k' l] & Heq & Hkl). simpl in Heq. subst k'.
    destruct (group_badges_group bs g k l Hg Hkl) as [_ Hne].
    destruct (filter (issuer_is k) bs) as [ | b rest] eqn:Hf; [contradiction | ].
    assert (Hb : In b (filter (issuer_is k) bs)) by (rewrite Hf; simpl; auto).
    apply filter_In in Hb as [Hb Hkb]. exists b. split; trivial.
    destruct (Hwf b Hb) as [[s Hs] _]. unfold issuer_is in Hkb. rewrite Hs in Hkb.
    apply py_eq_JStr_r in Hkb. now subst k.
  - intros (b & Hb & Hn).
    destruct (group_badges_contents bs g Hg) as (Hperm & _ & Hnamed).
    apply (Permutation_in _ (Permutation_sym Hperm)) in Hb.
    apply in_concat in Hb as (l & Hl & Hbl).
    apply in_map_iff in Hl as ([k' l'] & Heq & Hkl). simpl in Heq. subst l'.
    destruct (Hnamed k' l b Hkl Hbl) as (n & Hn' & Hk').
    assert (n = k) by congruence. subst n.
    destruct (Hwf b (Permutation_in _ Hperm
                       (proj2 (in_concat _ _) (ex_intro _ l (conj (in_map snd _ _ Hkl) Hbl)))))
      as [[s Hs] _].
    assert (k = JStr s) by congruence. subst k.
    apply py_eq_JStr_r in Hk'. subst k'. apply (in_map fst _ _ Hkl).
Qed.

Lemma has_badges_perm (bs bs' : list json) (n : string) :
  Permutation bs bs' -> has_badges bs n = has_badges bs' n.
Proof.
  intros Hp. unfold has_badges. apply eq_true_iff_eq. rewrite !existsb_exists.
  split; intros (b & Hb & Hn); exists b; split; trivial.
  - now apply (Permutation_in _ Hp).
  - now apply (Permutation_in _ (Permutation_sym Hp)).
Qed.

Lemma named_priority (n : string) : In n ISSUER_ORDER -> named ISSUER_ORDER (JStr n) = true.
Proof.
  intros Hn. unfold named. apply existsb_exists. exists n. split; trivial.
  simpl. apply String.eqb_refl.
Qed.

(** The keys after the priority issuers are the keys that are not
    priority issuers. *)
Lemma others_iff (bs : list json) (g : Groups) (others : list json) (k : json) :
  group_badges (JList bs) = Ok g ->
  keys g = (map JStr (filter (has_badges bs) ISSUER_ORDER) ++ others)%list ->
  Forall (fun k => named ISSUER_ORDER k = false) others ->
  In k others <-> In k (keys g) /\ named ISSUER_ORDER k = false.
Proof.
  intros Hg Hkeys Hun. rewrite Forall_forall in Hun. split.
  - intros Hk. split; [ | now apply Hun]. rewrite Hkeys. apply in_or_app. auto.
  - intros [Hk Hn]. rewrite Hkeys in Hk. apply in_app_or in Hk as [Hk | Hk]; trivial.
    apply in_map_iff in Hk as (n & <- & Hin). apply filter_In in Hin as [Hin _].
    rewrite (named_priority n Hin) in Hn. discriminate.
Qed.

Lemma Permutation_filter {A : Type} (f : A -> bool) (l l' : list A) :
  Permutation l l' -> Permutation (filter f l) (filter f l').
Proof.
  induction 1 as [ | x l l' _ IH | x y l | l l' l'' _ IH1 _ IH2]; simpl.
  - constructor.
  - destruct (f x); auto.
  - destruct (f x), (f y); auto. apply perm_swap.
  - now transitivity (filter f l').
Qed.

Lemma group_badges_groups_perm (bs bs' : list json) (g g' : Groups) (k : json)
    (l l' : list json) :
  Permutation bs bs' ->
  group_badges (JList bs) = Ok g -> group_badges (JList bs') = Ok g' ->
  In (k, l) g -> In (k, l') g' -> Permutation l l'.
Proof.
  intros Hp Hg Hg' Hl Hl'.
  destruct (group_badges_group bs g k l Hg Hl) as [Hs _].
  destruct (group_badges_group bs' g' k l' Hg' Hl') as [Hs' _].
  apply list_sort_perm in Hs, Hs'.
  rewrite <- Hs, <- Hs'. now apply Permutation_filter.
Qed.

(** X13: the order of the input does not matter to the layout.  For
    well-formed badges given in two different orders, [group_badges]
    returns both times, the issuers come in the same order, and the
    group of each issuer holds the same badges (only badges of equal
    date can change places). *)
Theorem group_badges_input_order (bs bs' : list json) :
  Forall well_formed_badge bs -> Permutation bs bs' ->
  exists g g',
    group_badges (JList bs) = Ok g /\ group_badges (JList bs') = Ok g' /\
    keys g = keys g' /\
    forall k l l', In (k, l) g -> In (k, l') g' -> Permutation l l'.
Proof.
  intros Hwf Hp.
  assert (Hwf' : Forall well_formed_badge bs') by now rewrite <- Hp.
  destruct (group_badges_total bs Hwf) as [g Hg].
  destruct (group_badges_total bs' Hwf') as [g' Hg'].
  exists g, g'. split; [exact Hg | ]. split; [exact Hg' | ]. split.
  2: { intros k l l'. exact (group_badges_groups_perm bs bs' g g' k l l' Hp Hg Hg'). }
  destruct (group_badges_keys_split bs g Hg) as (o & Hk & Hun & Hs).
  destruct (group_badges_keys_split bs' g' Hg') as (o' & Hk' & Hun' & Hs').
  assert (Hmem : forall k, In k (keys g) <-> In k (keys g')).
  { intros k. rewrite (group_badges_key_iff bs g k Hwf Hg).
    rewrite (group_badges_key_iff bs' g' k Hwf' Hg').
    split; intros (b & Hb & Hn); exists b; split; trivial.
    - now apply (Permutation_in _ Hp).
    - now apply (Permutation_in _ (Permutation_sym Hp)). }
  assert (Hstr : forall bs g, Forall well_formed_badge bs -> group_badges (JList bs) = Ok g ->
                 forall k, In k (keys g) -> is_string k).
  { intros bs0 g0 Hwf0 Hg0 k Hin.
    apply (group_badges_key_iff bs0 g0 k Hwf0 Hg0) in Hin as (b & Hb & Hn).
    rewrite Forall_forall in Hwf0. destruct (Hwf0 b Hb) as [[s Hs0] _].
    exists s. congruence. }
  rewrite Hk, Hk'. f_equal.
  - f_equal. apply filter_ext. intros n. now apply has_badges_perm.
  - apply sorted_strings_unique; trivial.
    + rewrite Forall_forall. intros k Hin. apply (Hstr bs g Hwf Hg).
      rewrite Hk. apply in_or_app. auto.
    + rewrite Forall_forall. intros k Hin. apply (Hstr bs' g' Hwf' Hg').
      rewrite Hk'. apply in_or_app. auto.
    + intros k. rewrite (others_iff bs g o k Hg Hk Hun).
      rewrite (others_iff bs' g' o' k Hg' Hk' Hun'). now rewrite Hmem.
Qed.

Lemma group_badges_input_order_witness :
  Forall well_formed_badge sample_badges /\
  Permutation sample_badges (rev sample_badges) /\
  exists g g',
    group_badges (JList sample_badges) = Ok g /\
    group_badges (JList (rev sample_badges)) = Ok g' /\
    keys g = keys g' /\
    forall k l l', In (k, l) g -> In (k, l') g' -> Permutation l l'.
Proof.
  split; [exact sample_badges_well_formed | ].
  split; [exact (Permutation_rev sample_badges) | ].
  exact (group_badges_input_order sample_badges (rev sample_badges)
           sample_badges_well_formed (Permutation_rev sample_badges)).
Defined.
